(** * lineage: the [Individual] class of [lineage/individual.py]

    A shallow embedding of the genotype ingestion and reconciliation code:
    [load_snps], [_read_raw_data], [_add_snps], [_double_single_alleles],
    [_sort_snps], [_natural_sort_key] and the [snps] accessor.

    The SNP table is a pandas [DataFrame] indexed by [rsid] with the columns
    [chrom], [pos] and [genotype].  It is embedded as the list of its rows,
    in row order: the order matters to [_sort_snps].  The pandas operations
    the code calls ([join], [combine_first], [loc] assignment, [unique],
    [sort_values]) are embedded in the module [pd] from their documented
    behaviour on frames whose index is unique. *)

From Stdlib Require Import List Bool Arith ZArith Lia.
From Stdlib Require Import Ascii String.
From Stdlib Require Import Permutation Sorted Finite.
Import ListNotations.

Local Open Scope string_scope.
Local Open Scope Z_scope.

Set Implicit Arguments.

(** ** Data model *)

(** One row of the frame.  [genotype] is [None] where pandas holds NaN. *)
Record row := mkRow {
  rsid : string;
  chrom : string;
  pos : Z;
  genotype : option string
}.

Definition table := list row.

Definition index (t : table) : list string := map rsid t.

(** [t.loc[k]] on a frame with a unique index; [None] where the label is
    absent. *)
Definition loc (t : table) (k : string) : option row :=
  find (fun r => (rsid r =? k)%string) t.

(** The invariant of the data model: one record per rsid. *)
Definition unique_index (t : table) : Prop := NoDup (index t).

(** Two frames hold the same records (the table as a mapping keyed by rsid). *)
Definition same_records (t1 t2 : table) : Prop :=
  forall k, loc t1 k = loc t2 k.

(** ** Orders used by Python's [sorted] and by string comparison *)

Section Lex.
Variable A : Type.
Variable eqb : A -> A -> bool.
Variable ltb : A -> A -> bool.

(** Python's comparison of two sequences: the first position where the
    elements differ decides; a proper prefix is smaller. *)
Fixpoint lex_lt (xs ys : list A) : bool :=
  match xs, ys with
  | [], [] => false
  | [], _ :: _ => true
  | _ :: _, [] => false
  | x :: xs', y :: ys' => if eqb x y then lex_lt xs' ys' else ltb x y
  end.
End Lex.

Definition code (c : ascii) : N := N_of_ascii c.

(** [a < b] on Python strings: by code point, position by position. *)
Definition str_lt (a b : string) : bool :=
  lex_lt Ascii.eqb (fun x y => (code x <? code y)%N)
         (list_ascii_of_string a) (list_ascii_of_string b).

(** Python's [sorted(l, key=key)]: a stable sort that only uses [<] on the
    keys.  [insert_by] puts [x] in front of the first element whose key is not
    smaller than the key of [x]; as [x] stood before all of them, elements with
    equal keys keep their order. *)
Section Sorted.
Variable A K : Type.
Variable key : A -> K.
Variable lt : K -> K -> bool.

Fixpoint insert_by (x : A) (l : list A) : list A :=
  match l with
  | [] => [x]
  | y :: l' => if lt (key y) (key x) then y :: insert_by x l' else x :: y :: l'
  end.

Fixpoint sorted (l : list A) : list A :=
  match l with
  | [] => []
  | x :: l' => insert_by x (sorted l')
  end.

(** No element is smaller than one that stands before it. *)
Definition no_inversion (a b : A) : Prop := lt (key b) (key a) = false.
End Sorted.

(** ** The pandas operations used by the code *)

Module pd.

(** [left.join(right, how='inner', rsuffix='_added')]: one row for each pair
    of a left and a right row with the same index label, carrying the
    columns of both. *)
Definition join_inner (left right : table) : list (row * row) :=
  flat_map (fun a =>
    map (fun b => (a, b))
        (filter (fun b => (rsid b =? rsid a)%string) right)) left.

(** [Series.unique()]: the distinct values in order of first appearance. *)
Fixpoint unique (l : list string) : list string :=
  match l with
  | [] => []
  | x :: l' => x :: filter (fun y => negb (y =? x)%string) (unique l')
  end.

(** [Index.union]: the labels of both, each once, sorted as strings. *)
Definition index_union (i1 i2 : list string) : list string :=
  sorted (fun k => k) str_lt (unique (i1 ++ i2)).

(** The value [combine_first] leaves in a cell: the caller's unless it is
    null. *)
Definition first_notnull {A} (x y : option A) : option A :=
  match x with Some _ => x | None => y end.

(** The row that [combine_first] has for a label: every cell takes the
    value of [this], and that of [other] where [this] has none.  [chrom] and
    [pos] are never null in a row, so a row of [this] keeps them. *)
Definition combined_rows (this other : table) (k : string) : list row :=
  match loc this k, loc other k with
  | Some a, Some b =>
      [mkRow k (chrom a) (pos a) (first_notnull (genotype a) (genotype b))]
  | Some a, None => [mkRow k (chrom a) (pos a) (genotype a)]
  | None, Some b => [mkRow k (chrom b) (pos b) (genotype b)]
  | None, None => []
  end.

(** [this.combine_first(other)]: the index is the union of both indices,
    with the combined row of each label. *)
Definition combine_first (this other : table) : table :=
  flat_map (combined_rows this other) (index_union (index this) (index other)).

(** [t.loc[labels, 'genotype'] = np.nan]. *)
Definition loc_set_genotype_nan (t : table) (labels : list string) : table :=
  map (fun r =>
    if existsb (fun k => (k =? rsid r)%string) labels
    then mkRow (rsid r) (chrom r) (pos r) None
    else r) t.

(** [t['pos'].astype(np.int64)]: [combine_first] hands the positions back
    as float64, which holds every genome coordinate exactly; the cast gives
    the same integers back. *)
Definition astype_int64 (t : table) : table :=
  map (fun r => mkRow (rsid r) (chrom r) (pos r) (genotype r)) t.

(** The position of a label among the categories of an ordered categorical;
    a label that is no category (NaN) sorts last. *)
Fixpoint category_code (categories : list string) (c : string) : nat :=
  match categories with
  | [] => O
  | x :: l => if (x =? c)%string then O else S (category_code l c)
  end.

Definition rank_lt (a b : nat * Z) : bool :=
  if Nat.eqb (fst a) (fst b) then snd a <? snd b
  else Nat.ltb (fst a) (fst b).

(** [t.sort_values(['chrom', 'pos'])] with [chrom] an ordered categorical:
    the stable sort on the pair (category code, position). *)
Definition sort_values (categories : list string) (t : table) : table :=
  sorted (fun r => (category_code categories (chrom r), pos r)) rank_lt t.

End pd.

(** ** [Individual] *)

(** The attributes of an [Individual]; [_snps] is [None] until a load has
    succeeded. *)
Record Individual := mkIndividual {
  _name : string;
  _snps : option table
}.

(** *** [_double_single_alleles] *)

(** [s.str.len() == n]; false on NaN. *)
Definition str_len_is (n : nat) (g : option string) : bool :=
  match g with
  | Some s => Nat.eqb (String.length s) n
  | None => false
  end.

(** [genotype * 2] on the selected rows. *)
Definition times2 (g : option string) : option string :=
  match g with
  | Some s => Some (s ++ s)
  | None => None
  end.

(** The row after the assignment: doubled where the mask [single_alleles]
    selects it. *)
Definition double_row (chrom' : string) (r : row) : row :=
  if (chrom r =? chrom')%string && str_len_is 1 (genotype r)
  then mkRow (rsid r) (chrom r) (pos r) (times2 (genotype r))
  else r.

Definition _double_single_alleles (df : table) (chrom' : string) : table :=
  map (double_row chrom') df.

(** *** [_natural_sort_key] *)

Inductive token :=
| TInt (n : N)
| TStr (s : string).

Definition is_digit (c : ascii) : bool :=
  ((48 <=? code c) && (code c <=? 57))%N.

(** [re.split('([0-9]+)', s)]: the text between the digit runs and the digit
    runs themselves, alternating and starting with a (possibly empty) text.
    [cur] is the piece being read, [dig] tells whether it is a digit run. *)
Fixpoint re_split (s : string) (cur : string) (dig : bool) : list string :=
  match s with
  | EmptyString => if dig then [cur; EmptyString] else [cur]
  | String c s' =>
      if is_digit c then
        if dig then re_split s' (cur ++ String c EmptyString) true
        else cur :: re_split s' (String c EmptyString) true
      else
        if dig then cur :: re_split s' (String c EmptyString) false
        else re_split s' (cur ++ String c EmptyString) false
  end.

(** [text.isdigit()]: not empty and digits only. *)
Definition isdigit (text : string) : bool :=
  match text with
  | EmptyString => false
  | _ => forallb is_digit (list_ascii_of_string text)
  end.


(** [int(text)] on a digit run. *)
Definition int_of (text : string) : N :=
  fold_left (fun n c => (10 * n + (code c - 48))%N)
            (list_ascii_of_string text) 0%N.

Definition lower_char (c : ascii) : ascii :=
  if ((65 <=? code c) && (code c <=? 90))%N
  then ascii_of_N (code c + 32) else c.

(** [text.lower()]. *)
Definition lower (text : string) : string :=
  string_of_list_ascii (map lower_char (list_ascii_of_string text)).

Definition _natural_sort_key (s : string) : list token :=
  map (fun text => if isdigit text then TInt (int_of text) else TStr (lower text))
      (re_split s EmptyString false).

(** [==] and [<] on the elements of a key.  Python raises on [<] between an
    [int] and a [str]; the keys of [_natural_sort_key] alternate [str] and
    [int] from the same start, so [sorted] never asks (lemma
    [natural_sort_key_comparable]).  The model orders an [int] before a
    [str]. *)
Definition token_eqb (a b : token) : bool :=
  match a, b with
  | TInt n, TInt m => (n =? m)%N
  | TStr s, TStr t => (s =? t)%string
  | _, _ => false
  end.

Definition token_lt (a b : token) : bool :=
  match a, b with
  | TInt n, TInt m => (n <? m)%N
  | TStr s, TStr t => str_lt s t
  | TInt _, TStr _ => true
  | TStr _, TInt _ => false
  end.

Definition key_lt (k1 k2 : list token) : bool :=
  lex_lt token_eqb token_lt k1 k2.



(** *** [_sort_snps] *)

(** [l.remove(x); l.append(x)] under [if x in l]; [l] holds [x] once. *)
Definition move_to_end (x : string) (l : list string) : list string :=
  if existsb (fun y => (y =? x)%string) l
  then filter (fun y => negb (y =? x)%string) l ++ [x]
  else l.

(** The ordered chromosome list that [_sort_snps] turns into categories. *)
Definition sorted_list (snps : table) : list string :=
  let sorted_list :=
    sorted _natural_sort_key key_lt (pd.unique (map chrom snps)) in
  let sorted_list := move_to_end "PAR" sorted_list in
  move_to_end "MT" sorted_list.

(** The new value of [self._snps]. *)
Definition _sort_snps (snps : table) : table :=
  pd.sort_values (sorted_list snps) snps.

(** *** [_add_snps] *)

(** [a == b] on two cells of [s.str[i]]; NaN equals nothing. *)
Definition cell_eqb (x y : option ascii) : bool :=
  match x, y with
  | Some a, Some b => Ascii.eqb a b
  | _, _ => false
  end.

Definition str_at (i : nat) (g : option string) : option ascii :=
  match g with
  | Some s => String.get i s
  | None => None
  end.

(** The row mask of [discrepant_positions]. *)
Definition position_differs (p : row * row) : bool :=
  negb (chrom (fst p) =? chrom (snd p))%string ||
  negb (pos (fst p) =? pos (snd p)).

(** The row mask that removes null genotypes. *)
Definition both_notnull (p : row * row) : bool :=
  match genotype (fst p), genotype (snd p) with
  | Some _, Some _ => true
  | _, _ => false
  end.

(** The row mask of [discrepant_genotypes], on the genotypes of the two
    sides. *)
Definition genotype_mask (g ga : option string) : bool :=
  (str_len_is 1 g && str_len_is 1 ga &&
   negb (cell_eqb (str_at 0 g) (str_at 0 ga)))
  || (str_len_is 2 g && str_len_is 2 ga &&
      negb (cell_eqb (str_at 0 g) (str_at 0 ga) &&
            cell_eqb (str_at 1 g) (str_at 1 ga)) &&
      negb (cell_eqb (str_at 0 g) (str_at 1 ga) &&
            cell_eqb (str_at 1 g) (str_at 0 ga))).

Definition genotype_differs (p : row * row) : bool :=
  genotype_mask (genotype (fst p)) (genotype (snd p)).

Definition discrepant_positions (own snps : table) : list (row * row) :=
  filter position_differs (pd.join_inner own snps).

Definition discrepant_genotypes (own snps : table) : list (row * row) :=
  filter genotype_differs (filter both_notnull (pd.join_inner own snps)).

(** [len(discrepant_positions)] and [len(discrepant_genotypes)]. *)
Definition D_p (own snps : table) : Z :=
  Z.of_nat (List.length (discrepant_positions own snps)).
Definition D_g (own snps : table) : Z :=
  Z.of_nat (List.length (discrepant_genotypes own snps)).

(** The frame built by lines 308-313 once neither check has returned. *)
Definition merged (own snps : table) : table :=
  pd.astype_int64
    (pd.loc_set_genotype_nan (pd.combine_first own snps)
       (map (fun p => rsid (fst p)) (discrepant_genotypes own snps))).

Definition _add_snps (self : Individual) (snps : option table)
    (discrepant_snp_positions_threshold discrepant_genotypes_threshold : Z)
    : Individual :=
  match snps with
  | None => self
  | Some snps =>
      let snps := _double_single_alleles snps "X" in
      match _snps self with
      | None => mkIndividual (_name self) (Some (_sort_snps snps))
      | Some own =>
          let n_p := D_p own snps in
          if negb ((0 <? n_p) && (n_p <? discrepant_snp_positions_threshold))
             && (discrepant_snp_positions_threshold <=? n_p)
          then self
          else
            let n_g := D_g own snps in
            if negb ((0 <? n_g) && (n_g <? discrepant_genotypes_threshold))
               && (discrepant_genotypes_threshold <=? n_g)
            then self
            else mkIndividual (_name self) (Some (_sort_snps (merged own snps)))
      end
  end.

(** *** Reading the files *)

(** A row as [pd.read_csv] hands it to [_read_ancestry], with the two allele
    columns. *)
Record ancestry_row := mkAncestryRow {
  a_rsid : string;
  a_chrom : string;
  a_pos : Z;
  allele1 : option string;
  allele2 : option string
}.

(** What [os], [zipfile], [gzip], [open] and [pd.read_csv] answer for a path.
    The three readers stand for the [pd.read_csv] call of each parser, [None]
    when the call raises; the three [readline] give the first line of the
    file, of the first member of the archive or of the gzip stream. *)
Record FileSystem := mkFileSystem {
  os_path_exists : string -> bool;
  zip_readline : string -> string;
  gzip_readline : string -> string;
  open_readline : string -> string;
  read_csv_23andme : string -> option table;
  read_csv_ftdna : string -> option table;
  read_csv_ancestry : string -> option (list ancestry_row)
}.

(** [sub in s]. *)
Fixpoint contains (sub s : string) : bool :=
  String.prefix sub s ||
  match s with
  | EmptyString => false
  | String _ s' => contains sub s'
  end.

Definition _read_23andme (fs : FileSystem) (file : string) : option table :=
  read_csv_23andme fs file.

Definition _read_ftdna (fs : FileSystem) (file : string) : option table :=
  read_csv_ftdna fs file.

(** [allele1 + allele2] on two cells; NaN where either is missing. *)
Definition add_alleles (x y : option string) : option string :=
  match x, y with
  | Some a, Some b => Some (a ++ b)
  | _, _ => None
  end.

(** The four assignments [df.ix[np.where(df['chrom'] == c)[0], 'chrom'] = v]. *)
Definition recode_chrom (c : string) : string :=
  let c := if (c =? "23")%string then "X" else c in
  let c := if (c =? "24")%string then "Y" else c in
  let c := if (c =? "25")%string then "PAR" else c in
  if (c =? "26")%string then "MT" else c.

Definition _read_ancestry (fs : FileSystem) (file : string) : option table :=
  match read_csv_ancestry fs file with
  | Some df =>
      Some (map (fun r =>
        mkRow (a_rsid r) (recode_chrom (a_chrom r)) (a_pos r)
              (add_alleles (allele1 r) (allele2 r))) df)
  | None => None
  end.

(** The values a caller may pass as [raw_data], and the elements of a list. *)
#[warnings="-register-all"] Inductive pyval :=
| PyStr (s : string)
| PyList (l : list pyval)
| PyOther.

Inductive exn := TypeError.

Inductive result (A : Type) :=
| Ok (a : A)
| Raise (e : exn).
Arguments Ok {A} a.
Arguments Raise {A} e.

(** The peek into the file: its first line, read through [zipfile], [gzip]
    or [open] by the name of the file. *)
Definition peek (fs : FileSystem) (file : string) : string :=
  if contains ".zip" file then zip_readline fs file
  else if contains ".gz" file then gzip_readline fs file
  else open_readline fs file.

(** A [file] that is no [str] raises [TypeError] before any table is read:
    in [os.path.exists], in [file + ' does not exist; skipping'] or in
    ['.zip' in file]. *)
Definition _read_raw_data (fs : FileSystem) (file : pyval) : result (option table) :=
  match file with
  | PyStr file =>
      if negb (os_path_exists fs file) then Ok None
      else
        let line := peek fs file in
        if contains "23andMe" line then Ok (_read_23andme fs file)
        else if contains "Ancestry" line then Ok (_read_ancestry fs file)
        else if (substring 0 4 line =? "RSID")%string then Ok (_read_ftdna fs file)
        else Ok None
  | _ => Raise TypeError
  end.

(** *** [load_snps] *)

(** The [for file in raw_data] loop: the attributes when the loop is left, and
    the exception that left it, if any. *)
Fixpoint load_files (fs : FileSystem) (self : Individual) (raw_data : list pyval)
    (pt gt : Z) : Individual * option exn :=
  match raw_data with
  | [] => (self, None)
  | file :: rest =>
      match _read_raw_data fs file with
      | Ok snps => load_files fs (_add_snps self snps pt gt) rest pt gt
      | Raise e => (self, Some e)
      end
  end.

Definition load_snps (fs : FileSystem) (self : Individual) (raw_data : pyval)
    (discrepant_snp_positions_threshold discrepant_genotypes_threshold : Z)
    : Individual * option exn :=
  match raw_data with
  | PyList files =>
      load_files fs self files discrepant_snp_positions_threshold
                 discrepant_genotypes_threshold
  | PyStr _ =>
      match _read_raw_data fs raw_data with
      | Ok snps =>
          (_add_snps self snps discrepant_snp_positions_threshold
                     discrepant_genotypes_threshold, None)
      | Raise e => (self, Some e)
      end
  | PyOther => (self, Some TypeError)
  end.

(** The defaults of [load_snps]. *)
Definition default_positions_threshold : Z := 100.
Definition default_genotypes_threshold : Z := 10000.

(** [Individual(name, raw_data)]; [raw_data] defaults to [None]. *)
Definition __init__ (fs : FileSystem) (name : string) (raw_data : option pyval)
    : Individual * option exn :=
  let self := mkIndividual name None in
  match raw_data with
  | Some raw_data =>
      load_snps fs self raw_data default_positions_threshold
                default_genotypes_threshold
  | None => (self, None)
  end.

(** *** The [snps] property *)

(** The value read through the property: [None], or the rows of the copy. *)
Definition snps (self : Individual) : option table :=
  match _snps self with
  | Some t => Some t
  | None => None
  end.

(** The same property on objects: frames live in a store, an [Individual]
    holds a reference to its frame, and [DataFrame.copy()] allocates. *)
Module Ref.

Definition ref := nat.
Definition store := list table.

Definition deref (h : store) (a : ref) : option table := nth_error h a.

Definition alloc (h : store) (t : table) : ref * store :=
  (List.length h, (h ++ [t])%list).

(** An assignment through a reference: the frame at [a] is replaced. *)
Fixpoint update (h : store) (a : ref) (t : table) : store :=
  match h, a with
  | [], _ => []
  | _ :: h', O => t :: h'
  | x :: h', S a' => x :: update h' a' t
  end.

Record object := mkObject {
  obj_name : string;
  obj_snps : option ref
}.

(** The attributes of the object as values. *)
Definition attrs (h : store) (o : object) : Individual :=
  mkIndividual (obj_name o)
    (match obj_snps o with Some a => deref h a | None => None end).

Definition snps (h : store) (self : object) : option ref * store :=
  match obj_snps self with
  | Some a =>
      match deref h a with
      | Some t => let (a', h') := alloc h t in (Some a', h')
      | None => (None, h)
      end
  | None => (None, h)
  end.

End Ref.

(** ** Predicates of the specification *)

(** A new [Individual] without raw data. *)
Definition new_individual (name : string) : Individual := mkIndividual name None.

(** The rule of the specification for two genotypes at a common key: both of
    length 1 with different characters, or both of length 2 with neither the
    direct nor the swapped pairing matching. *)
Definition discrepant_rule (g ga : option string) : Prop :=
  (exists a b,
      g = Some (String a EmptyString) /\ ga = Some (String b EmptyString) /\
      a <> b) \/
  (exists a b c d,
      g = Some (String a (String b EmptyString)) /\
      ga = Some (String c (String d EmptyString)) /\
      ~ (a = c /\ b = d) /\ ~ (a = d /\ b = c)).

(** The genotypes of the data model: one or two characters. *)
Definition genotype_ok (g : option string) : Prop :=
  forall s, g = Some s -> String.length s = 1%nat \/ String.length s = 2%nat.

(** What [_double_single_alleles] does to one row. *)
Definition doubled (c : string) (r r' : row) : Prop :=
  rsid r' = rsid r /\ chrom r' = chrom r /\ pos r' = pos r /\
  ((chrom r = c /\
    exists a, genotype r = Some (String a EmptyString) /\
              genotype r' = Some (String a (String a EmptyString))) \/
   (~ (chrom r = c /\ exists a, genotype r = Some (String a EmptyString)) /\
    r' = r)).



(** No two rows of the table stand at the same place, and no two chromosome
    labels of the table have the same natural sort key: the canonical order
    leaves no tie. *)
Definition distinct_loci (t : table) : Prop :=
  forall a b, In a t -> In b t -> chrom a = chrom b -> pos a = pos b -> a = b.

Definition distinct_keys (t : table) : Prop :=
  forall a b, In a t -> In b t ->
    _natural_sort_key (chrom a) = _natural_sort_key (chrom b) -> chrom a = chrom b.

(** The three soft failures of a file: it is missing, its first line carries
    no known signature, or the parser chosen by the signature fails. *)
Definition missing_source (fs : FileSystem) (file : string) : Prop :=
  os_path_exists fs file = false.

Definition unrecognized_format (fs : FileSystem) (file : string) : Prop :=
  os_path_exists fs file = true /\
  contains "23andMe" (peek fs file) = false /\
  contains "Ancestry" (peek fs file) = false /\
  (substring 0 4 (peek fs file) =? "RSID")%string = false.

Definition parse_failure (fs : FileSystem) (file : string) : Prop :=
  os_path_exists fs file = true /\
  ((contains "23andMe" (peek fs file) = true /\ read_csv_23andme fs file = None) \/
   (contains "23andMe" (peek fs file) = false /\
    contains "Ancestry" (peek fs file) = true /\ read_csv_ancestry fs file = None) \/
   (contains "23andMe" (peek fs file) = false /\
    contains "Ancestry" (peek fs file) = false /\
    (substring 0 4 (peek fs file) =? "RSID")%string = true /\
    read_csv_ftdna fs file = None)).

Definition yields_no_table (fs : FileSystem) (file : string) : Prop :=
  missing_source fs file \/ unrecognized_format fs file \/ parse_failure fs file.


Definition is_str (v : pyval) : bool :=
  match v with PyStr _ => true | _ => false end.


(** Rows in the order of [sort_values]: by category code, then by position. *)
Definition row_le (categories : list string) (a b : row) : Prop :=
  (pd.category_code categories (chrom a) < pd.category_code categories (chrom b))%nat \/
  (pd.category_code categories (chrom a) = pd.category_code categories (chrom b) /\
   pos a <= pos b).

(** [k1 <= k2] on natural sort keys. *)
Definition key_le (a b : string) : Prop :=
  key_lt (_natural_sort_key b) (_natural_sort_key a) = false.

(** The ranks of the chromosome sorter: every label of the table once, the
    labels other than PAR and MT in natural order, then PAR, then MT. *)
Definition natural_order_forced (t : table) (categories : list string) : Prop :=
  NoDup categories /\
  (forall c, In c categories <-> In c (map chrom t)) /\
  exists natural,
    categories =
      (natural ++ (if existsb (fun r => (chrom r =? "PAR")%string) t then ["PAR"] else [])
               ++ (if existsb (fun r => (chrom r =? "MT")%string) t then ["MT"] else []))%list /\
    ~ In "PAR" natural /\ ~ In "MT" natural /\
    StronglySorted key_le natural.

(** The canonical order of the accumulated table. *)
Definition canonical_order (t : table) : Prop :=
  exists categories,
    natural_order_forced t categories /\
    StronglySorted (row_le categories) t.

(** A table of [n] rows on chromosome 1, row [i] at position [100 * i + shift]
    with rsid [rs] followed by [i] strokes. *)
Fixpoint strokes (n : nat) : string :=
  match n with
  | O => EmptyString
  | S n' => String "|" (strokes n')
  end.

Definition simulate_snps (n : nat) (shift : Z) : table :=
  map (fun i => mkRow ("rs" ++ strokes i) "1" (100 * Z.of_nat i + shift) (Some "AA"))
      (seq 0 n).

(** ** Example data *)

(** The accumulated table and the candidate of scenario 1. *)
Definition scenario_own : table :=
  [mkRow "rs1" "1" 100 (Some "AG"); mkRow "rs2" "1" 200 (Some "TT")].

Definition scenario_added : table :=
  [mkRow "rs1" "1" 100 (Some "GA"); mkRow "rs3" "1" 300 (Some "CC")].


(** A file system with two 23andMe files holding the tables of scenario 1, a
    file without a known signature and an FTDNA file that does not parse;
    every other path is missing. *)
Definition example_fs : FileSystem :=
  mkFileSystem
    (fun file => existsb (fun f => (f =? file)%string)
                   ["own.txt"; "added.txt"; "notes.txt"; "broken.csv"])
    (fun _ => EmptyString)
    (fun _ => EmptyString)
    (fun file =>
       if (file =? "own.txt")%string || (file =? "added.txt")%string
       then "# This data file generated by 23andMe"
       else if (file =? "broken.csv")%string then "RSID,CHROMOSOME,POSITION,RESULT"
       else "shopping list")
    (fun file =>
       if (file =? "own.txt")%string then Some scenario_own
       else if (file =? "added.txt")%string then Some scenario_added
       else None)
    (fun _ => None)
    (fun _ => None).

(** ** The [name] property and [get_var_name] *)

Definition name (self : Individual) : string := _name self.

(** A word character of [re], on ASCII: a letter, a digit or the underscore.
    [\W] matches every other character. *)
Definition is_word (c : ascii) : bool :=
  is_digit c
  || ((65 <=? code c) && (code c <=? 90))%N
  || ((97 <=? code c) && (code c <=? 122))%N
  || (code c =? 95)%N.

(** The names on which [\W] and [\d] are the ASCII classes above. *)
Definition ascii_only (s : string) : Prop :=
  Forall (fun c => (code c < 128)%N) (list_ascii_of_string s).

(** [re.sub('\W|^(?=\d)', '_', self.name)]: every character that is no word
    character becomes an underscore, and the empty match in front of a leading
    digit puts one more underscore there. *)
Definition get_var_name (self : Individual) : string :=
  let body :=
    string_of_list_ascii
      (map (fun c => if is_word c then c else "_"%char)
           (list_ascii_of_string (name self))) in
  match name self with
  | String c _ => if is_digit c then String "_" body else body
  | EmptyString => body
  end.

(** ** States reached from tables with one record per rsid *)

Inductive reachable_unique : Individual -> Prop :=
| reach_unique_new : forall name, reachable_unique (new_individual name)
| reach_unique_add : forall self snps pt gt,
    reachable_unique self ->
    (forall t, snps = Some t -> unique_index t) ->
    reachable_unique (_add_snps self snps pt gt).

(** The two sides of a joined row, exchanged. *)
Definition swap_sides (p : row * row) : row * row := (snd p, fst p).


(** ** Further notions *)

(** The order of two labels by their place in a list of categories. *)
Definition code_le (categories : list string) (a b : string) : Prop :=
  (pd.category_code categories a <= pd.category_code categories b)%nat.

(** A string of word characters, and one that begins with a digit: what
    [get_var_name] looks for. *)
Definition word_only (s : string) : Prop :=
  Forall (fun c => is_word c = true) (list_ascii_of_string s).

Definition leading_digit (s : string) : bool :=
  match s with
  | String c _ => is_digit c
  | EmptyString => false
  end.

(** ** The complement helpers of [tests/test_lineage.py] *)

Definition get_complement (base : ascii) : ascii :=
  if (base =? "A")%char then "T"
  else if (base =? "G")%char then "C"
  else if (base =? "C")%char then "G"
  else if (base =? "T")%char then "A"
  else base.

(** What a helper hands back: a string, NaN, Python's [None] when the
    function ends without [return], or the [IndexError] of [genotype[1]]. *)
Inductive helper_result :=
| Str (s : string)
| NaN
| PyNone
| IndexError.

(** The [for] loop returns in its first round. *)
Definition complement_one_chrom (genotype : option string) : helper_result :=
  match genotype with
  | None => NaN
  | Some g =>
      match list_ascii_of_string g with
      | [] => PyNone
      | base :: _ =>
          let complement := EmptyString ++ String (get_complement base) EmptyString in
          match String.get 1 g with
          | Some c => Str (complement ++ String c EmptyString)
          | None => IndexError
          end
      end
  end.

Definition complement_two_chroms (genotype : option string) : option string :=
  match genotype with
  | None => None
  | Some g =>
      Some (fold_left
              (fun complement base =>
                 complement ++ String (get_complement base) EmptyString)
              (list_ascii_of_string g) EmptyString)
  end.

Definition is_base (c : ascii) : Prop :=
  c = "A"%char \/ c = "C"%char \/ c = "G"%char \/ c = "T"%char.

(** * Facts *)

(** ** Strict total orders given by a boolean [<] *)

Section StrictOrder.
Variable K : Type.
Variable lt : K -> K -> bool.
Hypothesis lt_irrefl : forall x, lt x x = false.
Hypothesis lt_trans : forall x y z, lt x y = true -> lt y z = true -> lt x z = true.
Hypothesis lt_total : forall x y, lt x y = false -> lt y x = false -> x = y.

Lemma lt_asym x y : lt x y = true -> lt y x = false.
Proof.
  intros Hxy. destruct (lt y x) eqn:Hyx; trivial.
  rewrite <- (lt_irrefl x). symmetry. eapply lt_trans; eassumption.
Qed.

Lemma not_lt_trans x y z : lt y x = false -> lt z y = false -> lt z x = false.
Proof.
  intros Hyx Hzy. destruct (lt z x) eqn:Hzx; trivial.
  destruct (lt x y) eqn:Hxy.
  - rewrite <- Hzy. symmetry. eapply lt_trans; eassumption.
  - assert (x = y) by (apply lt_total; assumption). subst. congruence.
Qed.
End StrictOrder.

Section LexFacts.
Variable A : Type.
Variable eqb : A -> A -> bool.
Variable ltb : A -> A -> bool.
Hypothesis eqb_eq : forall x y, eqb x y = true <-> x = y.
Hypothesis ltb_irrefl : forall x, ltb x x = false.
Hypothesis ltb_trans : forall x y z, ltb x y = true -> ltb y z = true -> ltb x z = true.
Hypothesis ltb_total : forall x y, ltb x y = false -> ltb y x = false -> x = y.

Lemma eqb_refl' x : eqb x x = true.
Proof. now apply eqb_eq. Qed.

Lemma lex_lt_irrefl xs : lex_lt eqb ltb xs xs = false.
Proof.
  induction xs as [|x xs IH]; simpl; trivial.
  now rewrite eqb_refl'.
Qed.

Lemma lex_lt_trans xs : forall ys zs,
  lex_lt eqb ltb xs ys = true -> lex_lt eqb ltb ys zs = true ->
  lex_lt eqb ltb xs zs = true.
Proof.
  induction xs as [|x xs IH]; intros [|y ys] [|z zs]; simpl; try congruence.
  destruct (eqb x y) eqn:Exy.
  - apply eqb_eq in Exy. subst y.
    destruct (eqb x z) eqn:Exz; trivial. apply IH.
  - destruct (eqb y z) eqn:Eyz.
    + apply eqb_eq in Eyz. subst z. rewrite Exy. trivial.
    + intros Hxy Hyz.
      assert (Hxz : ltb x z = true) by (eapply ltb_trans; eassumption).
      destruct (eqb x z) eqn:Exz; trivial.
      apply eqb_eq in Exz. subst z.
      rewrite ltb_irrefl in Hxz. discriminate.
Qed.

Lemma lex_lt_total xs : forall ys,
  lex_lt eqb ltb xs ys = false -> lex_lt eqb ltb ys xs = false -> xs = ys.
Proof.
  induction xs as [|x xs IH]; intros [|y ys]; simpl; try congruence.
  destruct (eqb x y) eqn:Exy.
  - apply eqb_eq in Exy. subst y. rewrite eqb_refl'.
    intros H1 H2. f_equal. now apply IH.
  - destruct (eqb y x) eqn:Eyx.
    + apply eqb_eq in Eyx. subst y. rewrite eqb_refl' in Exy. discriminate.
    + intros H1 H2. exfalso.
      assert (x = y) by now apply ltb_total.
      subst y. rewrite eqb_refl' in Exy. discriminate.
Qed.
End LexFacts.

(** ** The stable sort *)

Section SortedFacts.
Variable A K : Type.
Variable key : A -> K.
Variable lt : K -> K -> bool.

Lemma insert_by_perm x l : Permutation (insert_by key lt x l) (x :: l).
Proof.
  induction l as [|y l IH]; simpl; auto.
  destruct (lt (key y) (key x)); auto.
  rewrite IH. apply perm_swap.
Qed.

Lemma sorted_perm l : Permutation (sorted key lt l) l.
Proof.
  induction l as [|x l IH]; simpl; auto.
  rewrite insert_by_perm. auto.
Qed.

Lemma sorted_In l x : In x (sorted key lt l) <-> In x l.
Proof.
  split; apply Permutation_in; [|symmetry]; apply sorted_perm.
Qed.

Hypothesis lt_irrefl : forall x, lt x x = false.
Hypothesis lt_trans : forall x y z, lt x y = true -> lt y z = true -> lt x z = true.
Hypothesis lt_total : forall x y, lt x y = false -> lt y x = false -> x = y.

Lemma insert_by_sorted x l :
  StronglySorted (no_inversion key lt) l ->
  StronglySorted (no_inversion key lt) (insert_by key lt x l).
Proof.
  induction l as [|y l IH]; simpl; intros Hs.
  - repeat constructor.
  - inversion Hs as [|? ? Hs' Hall]; subst.
    destruct (lt (key y) (key x)) eqn:Hyx.
    + constructor; auto.
      rewrite Forall_forall in *. intros z Hz.
      apply (Permutation_in _ (insert_by_perm x l)) in Hz.
      destruct Hz as [<-|Hz]; auto.
      unfold no_inversion. eapply lt_asym; eauto.
    + constructor; auto. constructor; auto.
      rewrite Forall_forall in *. intros z Hz.
      unfold no_inversion.
      eapply not_lt_trans with (y := key y); eauto.
      apply Hall; assumption.
Qed.

Lemma sorted_sorted l : StronglySorted (no_inversion key lt) (sorted key lt l).
Proof.
  induction l as [|x l IH]; simpl.
  - constructor.
  - now apply insert_by_sorted.
Qed.
End SortedFacts.

Lemma StronglySorted_impl {A} (R R' : A -> A -> Prop) l :
  (forall a b, R a b -> R' a b) -> StronglySorted R l -> StronglySorted R' l.
Proof.
  intros HR. induction 1 as [|a l Hs IH Hall]; constructor; auto.
  eapply Forall_impl; [|exact Hall]. auto.
Qed.

Lemma StronglySorted_filter {A} (R : A -> A -> Prop) f l :
  StronglySorted R l -> StronglySorted R (filter f l).
Proof.
  induction 1 as [|a l Hs IH Hall]; simpl.
  - constructor.
  - destruct (f a); auto. constructor; auto.
    rewrite Forall_forall in *. intros x Hx.
    apply filter_In in Hx. apply Hall. tauto.
Qed.

(** ** The orders on characters, strings, tokens, keys and ranks *)

Lemma code_inj a b : code a = code b -> a = b.
Proof.
  unfold code. intros H.
  rewrite <- (ascii_N_embedding a), <- (ascii_N_embedding b). now rewrite H.
Qed.

Lemma list_ascii_inj a b :
  list_ascii_of_string a = list_ascii_of_string b -> a = b.
Proof.
  intros H.
  rewrite <- (string_of_list_ascii_of_string a),
          <- (string_of_list_ascii_of_string b).
  now rewrite H.
Qed.

Lemma str_lt_irrefl s : str_lt s s = false.
Proof.
  apply lex_lt_irrefl. intros x y. apply Ascii.eqb_eq.
Qed.

Lemma str_lt_trans a b c : str_lt a b = true -> str_lt b c = true -> str_lt a c = true.
Proof.
  apply lex_lt_trans.
  - intros x y. apply Ascii.eqb_eq.
  - intros x. apply N.ltb_irrefl.
  - intros x y z H1 H2. apply N.ltb_lt in H1, H2. apply N.ltb_lt. lia.
Qed.

Lemma str_lt_total a b : str_lt a b = false -> str_lt b a = false -> a = b.
Proof.
  intros H1 H2. apply list_ascii_inj. revert H1 H2. apply lex_lt_total.
  - intros x y. apply Ascii.eqb_eq.
  - intros x y H1 H2. apply N.ltb_ge in H1, H2. apply code_inj. lia.
Qed.

Lemma token_eqb_eq a b : token_eqb a b = true <-> a = b.
Proof.
  destruct a as [n|s], b as [m|t]; simpl; split; intros H; try congruence.
  - apply N.eqb_eq in H. congruence.
  - apply N.eqb_eq. congruence.
  - apply String.eqb_eq in H. congruence.
  - apply String.eqb_eq. congruence.
Qed.

Lemma token_lt_irrefl a : token_lt a a = false.
Proof.
  destruct a; simpl; [apply N.ltb_irrefl | apply str_lt_irrefl].
Qed.

Lemma token_lt_trans a b c :
  token_lt a b = true -> token_lt b c = true -> token_lt a c = true.
Proof.
  destruct a, b, c; simpl; try congruence.
  - intros H1 H2. apply N.ltb_lt in H1, H2. apply N.ltb_lt. lia.
  - apply str_lt_trans.
Qed.

Lemma token_lt_total a b : token_lt a b = false -> token_lt b a = false -> a = b.
Proof.
  destruct a, b; simpl; try congruence.
  - intros H1 H2. apply N.ltb_ge in H1, H2. f_equal. lia.
  - intros H1 H2. f_equal. now apply str_lt_total.
Qed.

Lemma key_lt_irrefl k : key_lt k k = false.
Proof. apply lex_lt_irrefl, token_eqb_eq. Qed.

Lemma key_lt_trans a b c : key_lt a b = true -> key_lt b c = true -> key_lt a c = true.
Proof.
  apply lex_lt_trans;
    [apply token_eqb_eq | apply token_lt_irrefl | apply token_lt_trans].
Qed.

Lemma key_lt_total a b : key_lt a b = false -> key_lt b a = false -> a = b.
Proof.
  apply lex_lt_total; [apply token_eqb_eq | apply token_lt_total].
Qed.

Lemma rank_lt_irrefl a : pd.rank_lt a a = false.
Proof.
  unfold pd.rank_lt. rewrite Nat.eqb_refl. apply Z.ltb_irrefl.
Qed.

Lemma rank_lt_trans a b c :
  pd.rank_lt a b = true -> pd.rank_lt b c = true -> pd.rank_lt a c = true.
Proof.
  unfold pd.rank_lt.
  destruct (Nat.eqb_spec (fst a) (fst b)), (Nat.eqb_spec (fst b) (fst c)),
           (Nat.eqb_spec (fst a) (fst c));
    rewrite ?Nat.ltb_lt, ?Z.ltb_lt; lia.
Qed.

Lemma rank_lt_total a b : pd.rank_lt a b = false -> pd.rank_lt b a = false -> a = b.
Proof.
  unfold pd.rank_lt. destruct a as [a1 a2], b as [b1 b2]; simpl.
  destruct (Nat.eqb_spec a1 b1), (Nat.eqb_spec b1 a1);
    rewrite ?Nat.ltb_ge, ?Z.ltb_ge; intros; f_equal; lia.
Qed.

Lemma rank_no_inversion categories a b :
  no_inversion (fun r => (pd.category_code categories (chrom r), pos r))
               pd.rank_lt a b ->
  row_le categories a b.
Proof.
  unfold no_inversion, pd.rank_lt, row_le. simpl.
  destruct (Nat.eqb_spec (pd.category_code categories (chrom b))
                         (pd.category_code categories (chrom a)));
    rewrite ?Nat.ltb_ge, ?Z.ltb_ge; lia.
Qed.

(** ** The shape of natural sort keys *)









(** ** [sort_values] and [_sort_snps] *)

Lemma sort_values_perm categories t : Permutation (pd.sort_values categories t) t.
Proof. apply sorted_perm. Qed.

Lemma sort_values_sorted categories t :
  StronglySorted (row_le categories) (pd.sort_values categories t).
Proof.
  eapply StronglySorted_impl; [apply rank_no_inversion|].
  apply sorted_sorted;
    [apply rank_lt_irrefl | apply rank_lt_trans | apply rank_lt_total].
Qed.

Lemma _sort_snps_perm t : Permutation (_sort_snps t) t.
Proof. apply sort_values_perm. Qed.

Lemma unique_In l x : In x (pd.unique l) <-> In x l.
Proof.
  induction l as [|y l IH]; simpl; [tauto|].
  rewrite filter_In, IH, negb_true_iff, String.eqb_neq.
  destruct (string_dec y x); [subst|]; intuition congruence.
Qed.

Lemma unique_NoDup l : NoDup (pd.unique l).
Proof.
  induction l as [|y l IH]; simpl; constructor.
  - rewrite filter_In, negb_true_iff, String.eqb_neq. tauto.
  - now apply NoDup_filter.
Qed.

Lemma existsb_eqb_In x l : existsb (fun y => (y =? x)%string) l = true <-> In x l.
Proof.
  rewrite existsb_exists. split.
  - intros [y [Hy E]]. apply String.eqb_eq in E. now subst.
  - intros H. exists x. split; trivial. apply String.eqb_refl.
Qed.

Lemma existsb_chrom_In x (t : table) :
  existsb (fun r => (chrom r =? x)%string) t = true <-> In x (map chrom t).
Proof.
  rewrite existsb_exists, in_map_iff. split.
  - intros [r [Hr E]]. apply String.eqb_eq in E. eauto.
  - intros [r [E Hr]]. exists r. split; trivial. now apply String.eqb_eq.
Qed.

Lemma bool_eq_iff (a b : bool) : (a = true <-> b = true) -> a = b.
Proof. destruct a, b; intuition congruence. Qed.

Lemma filter_absent x l :
  ~ In x l -> filter (fun y => negb (y =? x)%string) l = l.
Proof.
  induction l as [|y l IH]; simpl; trivial.
  intros H. destruct (String.eqb_spec y x); simpl.
  - subst. tauto.
  - f_equal. tauto.
Qed.

Lemma move_to_end_eq x l :
  move_to_end x l =
  (filter (fun y => negb (y =? x)%string) l ++
   (if existsb (fun y => (y =? x)%string) l then [x] else []))%list.
Proof.
  unfold move_to_end.
  destruct (existsb (fun y => (y =? x)%string) l) eqn:E; trivial.
  rewrite app_nil_r, filter_absent; trivial.
  rewrite <- existsb_eqb_In. congruence.
Qed.

Lemma move_to_end_In x l c : In c (move_to_end x l) <-> In c l.
Proof.
  rewrite move_to_end_eq, in_app_iff, filter_In, negb_true_iff, String.eqb_neq.
  destruct (existsb (fun y => (y =? x)%string) l) eqn:E.
  - apply existsb_eqb_In in E. simpl.
    destruct (string_dec c x); [subst|]; intuition congruence.
  - assert (~ In x l) by (rewrite <- existsb_eqb_In; congruence).
    simpl. destruct (string_dec c x); [subst|]; intuition congruence.
Qed.

Lemma move_to_end_NoDup x l : NoDup l -> NoDup (move_to_end x l).
Proof.
  intros H. rewrite move_to_end_eq.
  apply NoDup_app.
  - now apply NoDup_filter.
  - destruct (existsb _ l); repeat constructor; simpl; tauto.
  - intros c Hc. apply filter_In in Hc.
    rewrite negb_true_iff, String.eqb_neq in Hc.
    destruct (existsb _ l); simpl; intuition congruence.
Qed.

Lemma sorted_list_In t c : In c (sorted_list t) <-> In c (map chrom t).
Proof.
  unfold sorted_list.
  now rewrite !move_to_end_In, sorted_In, unique_In.
Qed.

Lemma sorted_list_NoDup t : NoDup (sorted_list t).
Proof.
  unfold sorted_list. do 2 apply move_to_end_NoDup.
  eapply Permutation_NoDup; [symmetry; apply sorted_perm|].
  apply unique_NoDup.
Qed.

Lemma natural_sorted l :
  StronglySorted key_le (sorted _natural_sort_key key_lt l).
Proof.
  apply sorted_sorted;
    [apply key_lt_irrefl | apply key_lt_trans | apply key_lt_total].
Qed.

Lemma sorted_list_order t t' :
  Permutation t' t -> natural_order_forced t' (sorted_list t).
Proof.
  intros HP.
  assert (Hin : forall c, In c (map chrom t') <-> In c (map chrom t)).
  { intros c. split; apply Permutation_in; [|symmetry]; now apply Permutation_map. }
  split; [apply sorted_list_NoDup|].
  split; [intros c; now rewrite sorted_list_In, Hin|].
  set (S := sorted _natural_sort_key key_lt (pd.unique (map chrom t))).
  assert (HS : forall c, In c S <-> In c (map chrom t)).
  { intros c. unfold S. now rewrite sorted_In, unique_In. }
  exists (filter (fun y => negb (y =? "MT")%string)
                 (filter (fun y => negb (y =? "PAR")%string) S)).
  split; [|split; [|split]].
  - unfold sorted_list. fold S.
    rewrite (move_to_end_eq "MT"), (move_to_end_eq "PAR").
    rewrite filter_app, <- app_assoc.
    replace (existsb (fun r => (chrom r =? "PAR")%string) t')
      with (existsb (fun y => (y =? "PAR")%string) S)
      by (apply bool_eq_iff; now rewrite existsb_eqb_In, existsb_chrom_In, HS, Hin).
    replace (existsb (fun r => (chrom r =? "MT")%string) t')
      with (existsb (fun y => (y =? "MT")%string)
              (filter (fun y => negb (y =? "PAR")%string) S ++
               (if existsb (fun y => (y =? "PAR")%string) S then ["PAR"] else [])))
      by (apply bool_eq_iff;
          rewrite <- move_to_end_eq, !existsb_eqb_In, move_to_end_In,
                  existsb_chrom_In, HS, Hin; reflexivity).
    f_equal. f_equal.
    destruct (existsb (fun y => (y =? "PAR")%string) S); reflexivity.
  - rewrite !filter_In, !negb_true_iff. simpl. intuition congruence.
  - rewrite !filter_In, !negb_true_iff. simpl. intuition congruence.
  - do 2 apply StronglySorted_filter. apply natural_sorted.
Qed.

Lemma _sort_snps_canonical t : canonical_order (_sort_snps t).
Proof.
  exists (sorted_list t). split.
  - apply sorted_list_order, _sort_snps_perm.
  - apply sort_values_sorted.
Qed.

(** ** Lookup by rsid *)

Lemma row_eta r : mkRow (rsid r) (chrom r) (pos r) (genotype r) = r.
Proof. now destruct r. Qed.

Lemma loc_Some t k r : loc t k = Some r -> In r t /\ rsid r = k.
Proof.
  unfold loc. intros H. apply find_some in H.
  now rewrite String.eqb_eq in H.
Qed.

Lemma loc_None t k : loc t k = None <-> ~ In k (index t).
Proof.
  unfold loc, index. split.
  - intros H Hin. apply in_map_iff in Hin as [r [E Hr]].
    apply (find_none _ _ H) in Hr. rewrite String.eqb_neq in Hr. congruence.
  - intros H. destruct (find _ t) as [r|] eqn:E; trivial.
    apply find_some in E as [Hr E]. apply String.eqb_eq in E.
    exfalso. apply H. apply in_map_iff. eauto.
Qed.

Lemma loc_In_index t k : In k (index t) <-> exists r, loc t k = Some r.
Proof.
  destruct (loc t k) as [r|] eqn:E.
  - split; eauto. intros _. apply loc_Some in E as [Hr <-]. now apply in_map.
  - apply loc_None in E. split; [tauto|]. intros [r Hr]. discriminate.
Qed.

Lemma loc_unique t r : unique_index t -> In r t -> loc t (rsid r) = Some r.
Proof.
  unfold unique_index, loc, index.
  induction t as [|x t IH]; simpl; [tauto|].
  intros Hnd [->|Hr].
  - now rewrite String.eqb_refl.
  - inversion Hnd as [|? ? Hx Hnd']; subst.
    destruct (String.eqb_spec (rsid x) (rsid r)) as [E|_]; auto.
    exfalso. apply Hx. rewrite E. now apply in_map.
Qed.

Lemma loc_perm t t' k : unique_index t -> Permutation t t' -> loc t' k = loc t k.
Proof.
  intros Hnd HP.
  assert (Hnd' : unique_index t').
  { unfold unique_index, index in *.
    eapply Permutation_NoDup; [|exact Hnd]. now apply Permutation_map. }
  destruct (loc t k) as [r|] eqn:E.
  - apply loc_Some in E as [Hr <-]. apply loc_unique; trivial.
    eapply Permutation_in; eassumption.
  - apply loc_None. apply loc_None in E. intros Hin. apply E.
    eapply Permutation_in; [|exact Hin]. apply Permutation_map. now symmetry.
Qed.

Lemma loc_map f t k :
  (forall r, rsid (f r) = rsid r) -> loc (map f t) k = option_map f (loc t k).
Proof.
  intros Hf. unfold loc. induction t as [|x t IH]; simpl; trivial.
  rewrite Hf. destruct (rsid x =? k)%string; auto.
Qed.

Lemma index_map f t : (forall r, rsid (f r) = rsid r) -> index (map f t) = index t.
Proof.
  intros Hf. unfold index. rewrite map_map. apply map_ext. auto.
Qed.

Lemma loc_app t1 t2 k :
  loc (t1 ++ t2)%list k = match loc t1 k with Some r => Some r | None => loc t2 k end.
Proof.
  unfold loc. induction t1 as [|x t1 IH]; simpl; trivial.
  destruct (rsid x =? k)%string; auto.
Qed.

(** ** [combine_first] *)

Lemma index_union_In i1 i2 k :
  In k (pd.index_union i1 i2) <-> In k i1 \/ In k i2.
Proof.
  unfold pd.index_union. now rewrite sorted_In, unique_In, in_app_iff.
Qed.

Lemma index_union_NoDup i1 i2 : NoDup (pd.index_union i1 i2).
Proof.
  unfold pd.index_union.
  eapply Permutation_NoDup; [symmetry; apply sorted_perm|]. apply unique_NoDup.
Qed.

Section ByLabel.
(** A frame built label by label: at most one row for a label, with that
    label as its rsid. *)
Variable F : string -> list row.
Hypothesis F_rows : forall k, F k = [] \/ exists r, F k = [r] /\ rsid r = k.

Lemma loc_flat_map_skip labels k :
  ~ In k labels -> loc (flat_map F labels) k = None.
Proof.
  induction labels as [|u labels IH]; simpl; trivial.
  intros H. rewrite loc_app, IH by tauto.
  destruct (F_rows u) as [->|[r [-> E]]]; trivial.
  unfold loc. simpl. destruct (String.eqb_spec (rsid r) k); trivial.
  exfalso. apply H. left. congruence.
Qed.

Lemma loc_flat_map labels k :
  NoDup labels -> In k labels -> loc (flat_map F labels) k = loc (F k) k.
Proof.
  induction labels as [|u labels IH]; simpl; [tauto|].
  intros Hnd Hin. inversion Hnd as [|? ? Hu Hnd']; subst.
  rewrite loc_app. destruct Hin as [->|Hin].
  - rewrite loc_flat_map_skip by assumption. now destruct (loc (F k) k).
  - rewrite IH by assumption.
    destruct (F_rows u) as [->|[r [-> E]]]; trivial.
    unfold loc at 1. simpl. destruct (String.eqb_spec (rsid r) k); trivial.
    exfalso. apply Hu. congruence.
Qed.

Lemma index_flat_map labels :
  (forall k, In k labels -> F k <> []) -> index (flat_map F labels) = labels.
Proof.
  induction labels as [|u labels IH]; simpl; trivial.
  intros H. unfold index in *. rewrite map_app, IH by auto.
  destruct (F_rows u) as [E|[r [-> E]]]; [|simpl; congruence].
  exfalso. apply (H u); auto.
Qed.
End ByLabel.

Lemma combined_rows_rows this other k :
  pd.combined_rows this other k = [] \/
  exists r, pd.combined_rows this other k = [r] /\ rsid r = k.
Proof.
  unfold pd.combined_rows.
  destruct (loc this k), (loc other k); eauto.
Qed.

Lemma index_combine_first this other :
  index (pd.combine_first this other) = pd.index_union (index this) (index other).
Proof.
  apply (index_flat_map (pd.combined_rows this other) (combined_rows_rows this other)).
  intros k Hk. apply index_union_In in Hk. unfold pd.combined_rows.
  destruct Hk as [Hk|Hk]; apply loc_In_index in Hk as [r ->];
    destruct (loc _ k); discriminate.
Qed.

Lemma combine_first_unique this other : unique_index (pd.combine_first this other).
Proof.
  unfold unique_index. rewrite index_combine_first. apply index_union_NoDup.
Qed.

Lemma loc_combine_first this other k :
  loc (pd.combine_first this other) k =
  match loc this k, loc other k with
  | Some a, Some b =>
      Some (mkRow k (chrom a) (pos a) (pd.first_notnull (genotype a) (genotype b)))
  | Some a, None => Some a
  | None, Some b => Some b
  | None, None => None
  end.
Proof.
  change (pd.combine_first this other)
    with (flat_map (pd.combined_rows this other)
                   (pd.index_union (index this) (index other))).
  destruct (in_dec string_dec k (pd.index_union (index this) (index other)))
    as [Hin|Hout].
  - rewrite (loc_flat_map _ (combined_rows_rows this other))
      by (trivial; apply index_union_NoDup).
    unfold pd.combined_rows.
    destruct (loc this k) as [a|] eqn:Ea, (loc other k) as [b|] eqn:Eb;
      unfold loc at 1; simpl; rewrite ?String.eqb_refl; trivial.
    + apply loc_Some in Ea as [_ <-]. now rewrite row_eta.
    + apply loc_Some in Eb as [_ <-]. now rewrite row_eta.
  - rewrite (loc_flat_map_skip _ (combined_rows_rows this other)) by assumption.
    rewrite index_union_In in Hout.
    destruct (loc this k) as [a|] eqn:Ea.
    { exfalso. apply Hout. left. apply loc_In_index. eauto. }
    destruct (loc other k) as [b|] eqn:Eb; trivial.
    exfalso. apply Hout. right. apply loc_In_index. eauto.
Qed.

(** ** The joined rows and the two checks *)

Lemma join_inner_In own snps a b :
  In (a, b) (pd.join_inner own snps) <-> In a own /\ In b snps /\ rsid b = rsid a.
Proof.
  unfold pd.join_inner. rewrite in_flat_map. split.
  - intros [x [Hx H]]. apply in_map_iff in H as [y [E Hy]].
    apply filter_In in Hy as [Hy Hk]. apply String.eqb_eq in Hk.
    inversion E; subst. auto.
  - intros [Ha [Hb E]]. exists a. split; trivial.
    apply in_map_iff. exists b. split; trivial.
    apply filter_In. split; trivial. now apply String.eqb_eq.
Qed.

Lemma join_inner_loc own snps a b :
  unique_index own -> unique_index snps ->
  (In (a, b) (pd.join_inner own snps) <->
   loc own (rsid a) = Some a /\ loc snps (rsid a) = Some b).
Proof.
  intros Ho Hs. rewrite join_inner_In. split.
  - intros [Ha [Hb E]]. split; [now apply loc_unique|].
    rewrite <- E. now apply loc_unique.
  - intros [Ha Hb]. apply loc_Some in Ha as [Ha _], Hb as [Hb E]. auto.
Qed.

Lemma genotype_mask_notnull g ga :
  genotype_mask g ga = true -> exists s sa, g = Some s /\ ga = Some sa.
Proof.
  destruct g as [s|], ga as [sa|]; simpl; try discriminate; eauto.
  - unfold genotype_mask. simpl. rewrite !andb_false_r. discriminate.
Qed.

Lemma discrepant_genotypes_In own snps a b :
  In (a, b) (discrepant_genotypes own snps) <->
  In (a, b) (pd.join_inner own snps) /\
  genotype_mask (genotype a) (genotype b) = true.
Proof.
  unfold discrepant_genotypes, genotype_differs, both_notnull.
  rewrite !filter_In. simpl. split; [tauto|].
  intros [Hin Hm]. repeat split; trivial.
  apply genotype_mask_notnull in Hm as [s [sa [-> ->]]]. reflexivity.
Qed.


(** The labels handed to [loc] by line 310. *)
Lemma discrepant_labels_In own snps k a b :
  unique_index own -> unique_index snps ->
  loc own k = Some a -> loc snps k = Some b ->
  (In k (map (fun p => rsid (fst p)) (discrepant_genotypes own snps)) <->
   genotype_mask (genotype a) (genotype b) = true).
Proof.
  intros Ho Hs Ha Hb. rewrite in_map_iff. split.
  - intros [[x y] [E Hin]]. simpl in E. subst k.
    apply discrepant_genotypes_In in Hin as [Hin Hm].
    apply (join_inner_loc _ _ Ho Hs) in Hin as [Hx Hy]. congruence.
  - intros Hm. exists (a, b). simpl.
    pose proof (loc_Some _ _ Ha) as [_ Ek]. split; trivial.
    apply discrepant_genotypes_In. split; trivial.
    apply (join_inner_loc _ _ Ho Hs). subst k. auto.
Qed.

Lemma discrepant_labels_common own snps k :
  In k (map (fun p => rsid (fst p)) (discrepant_genotypes own snps)) ->
  In k (index own) /\ In k (index snps).
Proof.
  rewrite in_map_iff. intros [[x y] [E Hin]]. simpl in E. subst k.
  apply discrepant_genotypes_In in Hin as [Hin _].
  apply join_inner_In in Hin as [Hx [Hy E]].
  split; [|rewrite <- E]; now apply in_map.
Qed.

(** ** The merged frame *)

Lemma astype_int64_id t : pd.astype_int64 t = t.
Proof.
  unfold pd.astype_int64. rewrite <- (map_id t) at 2.
  apply map_ext. apply row_eta.
Qed.

Lemma index_loc_set_genotype_nan t labels :
  index (pd.loc_set_genotype_nan t labels) = index t.
Proof.
  apply index_map. intros r. now destruct (existsb _ labels).
Qed.

Lemma merged_index own snps :
  index (merged own snps) = pd.index_union (index own) (index snps).
Proof.
  unfold merged.
  now rewrite astype_int64_id, index_loc_set_genotype_nan, index_combine_first.
Qed.

Lemma merged_unique own snps : unique_index (merged own snps).
Proof.
  unfold unique_index. rewrite merged_index. apply index_union_NoDup.
Qed.

(** The record that the merged frame holds for a label. *)
Lemma loc_merged own snps k :
  unique_index own -> unique_index snps ->
  loc (merged own snps) k =
  match loc own k, loc snps k with
  | Some a, Some b =>
      Some (mkRow k (chrom a) (pos a)
              (if genotype_mask (genotype a) (genotype b) then None
               else pd.first_notnull (genotype a) (genotype b)))
  | Some a, None => Some a
  | None, Some b => Some b
  | None, None => None
  end.
Proof.
  intros Ho Hs. unfold merged. rewrite astype_int64_id.
  unfold pd.loc_set_genotype_nan.
  rewrite loc_map by (intros r; now destruct (existsb _ _)).
  rewrite loc_combine_first.
  set (labels := map (fun p => rsid (fst p)) (discrepant_genotypes own snps)).
  destruct (loc own k) as [a|] eqn:Ea, (loc snps k) as [b|] eqn:Eb; simpl; trivial.
  - destruct (genotype_mask (genotype a) (genotype b)) eqn:Hm.
    + replace (existsb (fun k0 => (k0 =? k)%string) labels) with true; trivial.
      symmetry. apply existsb_eqb_In.
      now apply (@discrepant_labels_In own snps k a b Ho Hs Ea Eb).
    + replace (existsb (fun k0 => (k0 =? k)%string) labels) with false; trivial.
      symmetry. apply not_true_is_false. rewrite existsb_eqb_In. unfold labels.
      rewrite (@discrepant_labels_In own snps k a b Ho Hs Ea Eb). congruence.
  - replace (existsb (fun k0 => (k0 =? rsid a)%string) labels) with false; trivial.
    symmetry. apply not_true_is_false. rewrite existsb_eqb_In.
    intros Hin. apply discrepant_labels_common in Hin as [_ Hin].
    apply loc_Some in Ea as [_ Ek]. rewrite Ek in Hin.
    apply loc_None in Eb. tauto.
  - replace (existsb (fun k0 => (k0 =? rsid b)%string) labels) with false; trivial.
    symmetry. apply not_true_is_false. rewrite existsb_eqb_In.
    intros Hin. apply discrepant_labels_common in Hin as [Hin _].
    apply loc_Some in Eb as [_ Ek]. rewrite Ek in Hin.
    apply loc_None in Ea. tauto.
Qed.

Lemma loc__sort_snps t k : unique_index t -> loc (_sort_snps t) k = loc t k.
Proof.
  intros H. apply loc_perm; trivial. symmetry. apply _sort_snps_perm.
Qed.

Lemma _sort_snps_unique t : unique_index t -> unique_index (_sort_snps t).
Proof.
  unfold unique_index, index. intros H.
  eapply Permutation_NoDup; [|exact H].
  apply Permutation_map. symmetry. apply _sort_snps_perm.
Qed.


(** ** [_double_single_alleles] *)

Lemma _double_single_alleles_index df c :
  index (_double_single_alleles df c) = index df.
Proof.
  apply index_map. intros r. unfold double_row. now destruct (_ && _).
Qed.

Lemma _double_single_alleles_unique df c :
  unique_index df -> unique_index (_double_single_alleles df c).
Proof.
  unfold unique_index. now rewrite _double_single_alleles_index.
Qed.

(** ** The genotype rule *)

Lemma genotype_mask_rule g ga :
  genotype_mask g ga = true <-> discrepant_rule g ga.
Proof.
  unfold discrepant_rule. split.
  - intros H. pose proof (genotype_mask_notnull _ _ H) as [s [sa [-> ->]]].
    unfold genotype_mask in H. simpl in H.
    destruct s as [|a [|b [|? ?]]], sa as [|c [|d [|? ?]]]; simpl in H;
      try discriminate.
    + left. exists a, c. repeat split.
      destruct (Ascii.eqb_spec a c); [discriminate | assumption].
    + right. exists a, b, c, d. repeat split.
      * intros [-> ->]. rewrite !Ascii.eqb_refl in H. discriminate.
      * intros [-> ->]. rewrite !Ascii.eqb_refl in H.
        simpl in H. rewrite andb_false_r in H. discriminate.
  - intros [[a [b [-> [-> Hab]]]] | [a [b [c [d [-> [-> [H1 H2]]]]]]]];
      unfold genotype_mask; simpl.
    + destruct (Ascii.eqb_spec a b); [contradiction | reflexivity].
    + destruct (Ascii.eqb_spec a c), (Ascii.eqb_spec b d),
               (Ascii.eqb_spec a d), (Ascii.eqb_spec b c); simpl; tauto.
Qed.

(** C3.  A pair of genotypes at a common key is classified discrepant iff both
    have length 1 and the characters differ, or both have length 2 and neither
    the direct nor the swapped pairing matches.  So a key with a null genotype
    on either side, a pair of mixed lengths, and AG against GA are never
    discrepant. *)
Theorem genotype_discrepancy_classification :
  (forall own snps a b,
      In (a, b) (discrepant_genotypes own snps) <->
      In (a, b) (pd.join_inner own snps) /\
      discrepant_rule (genotype a) (genotype b)) /\
  (forall g ga, genotype_mask g ga = true <-> discrepant_rule g ga) /\
  (forall ga, genotype_mask None ga = false) /\
  (forall g, genotype_mask g None = false) /\
  (forall a b c,
      genotype_mask (Some (String a EmptyString))
                    (Some (String b (String c EmptyString))) = false) /\
  (forall a b c,
      genotype_mask (Some (String a (String b EmptyString)))
                    (Some (String c EmptyString)) = false) /\
  genotype_mask (Some "AG") (Some "GA") = false /\
  genotype_mask (Some "GA") (Some "AG") = false.
Proof.
  split; [|split; [|split; [|split; [|split; [|split; [|split]]]]]];
    try reflexivity.
  - intros. rewrite discrepant_genotypes_In, genotype_mask_rule. reflexivity.
  - apply genotype_mask_rule.
  - intros g. destruct g; unfold genotype_mask; simpl;
      now rewrite ?andb_false_r.
Qed.

(** ** [_add_snps] case by case *)

Lemma chained_test n thr :
  negb ((0 <? n) && (n <? thr)) && (thr <=? n) = (thr <=? n).
Proof.
  destruct (Z.leb_spec thr n) as [H|H]; [|now rewrite andb_false_r].
  replace (n <? thr) with false by (symmetry; apply Z.ltb_ge; lia).
  now rewrite andb_false_r.
Qed.


Lemma _add_snps_first self snps pt gt :
  _snps self = None ->
  _add_snps self (Some snps) pt gt =
  mkIndividual (_name self) (Some (_sort_snps (_double_single_alleles snps "X"))).
Proof. unfold _add_snps. now intros ->. Qed.

Lemma _add_snps_next self own snps pt gt :
  _snps self = Some own ->
  _add_snps self (Some snps) pt gt =
  let added := _double_single_alleles snps "X" in
  if pt <=? D_p own added then self
  else if gt <=? D_g own added then self
  else mkIndividual (_name self) (Some (_sort_snps (merged own added))).
Proof.
  unfold _add_snps. intros ->. now rewrite !chained_test.
Qed.

Lemma _add_snps_abort self own snps pt gt :
  _snps self = Some own ->
  pt <= D_p own (_double_single_alleles snps "X") \/
  gt <= D_g own (_double_single_alleles snps "X") ->
  _add_snps self (Some snps) pt gt = self.
Proof.
  intros Hown H. rewrite (_add_snps_next _ _ _ _ Hown). simpl.
  destruct (Z.leb_spec pt (D_p own (_double_single_alleles snps "X"))); trivial.
  destruct (Z.leb_spec gt (D_g own (_double_single_alleles snps "X"))); trivial.
  lia.
Qed.




Lemma loc_sorted_merged own added k :
  unique_index own -> unique_index added ->
  loc (_sort_snps (merged own added)) k =
  match loc own k, loc added k with
  | Some a, Some b =>
      Some (mkRow k (chrom a) (pos a)
              (if genotype_mask (genotype a) (genotype b) then None
               else pd.first_notnull (genotype a) (genotype b)))
  | Some a, None => Some a
  | None, Some b => Some b
  | None, None => None
  end.
Proof.
  intros Ho Ha. rewrite loc__sort_snps by apply merged_unique.
  now apply loc_merged.
Qed.


Lemma strokes_length n : String.length (strokes n) = n.
Proof. induction n; simpl; congruence. Qed.

Lemma simulate_snps_unique n shift : unique_index (simulate_snps n shift).
Proof.
  unfold unique_index, index, simulate_snps. rewrite map_map. simpl.
  apply Finite.Injective_map_NoDup; [|apply seq_NoDup].
  intros i j H. injection H as H.
  rewrite <- (strokes_length i), <- (strokes_length j). now rewrite H.
Qed.





(** ** Doubling of single alleles *)

Lemma str_len_is_1 g :
  str_len_is 1 g = true <-> exists a, g = Some (String a EmptyString).
Proof.
  destruct g as [[|a [|b s]]|]; simpl; split; try discriminate; eauto;
    intros [x H]; discriminate.
Qed.

Lemma _double_single_alleles_rows df c :
  Forall2 (doubled c) df (_double_single_alleles df c).
Proof.
  induction df as [|r df IH]; simpl; constructor; trivial.
  unfold doubled, double_row.
  destruct (String.eqb_spec (chrom r) c) as [E|E];
    destruct (str_len_is 1 (genotype r)) eqn:L; simpl.
  - apply str_len_is_1 in L as [a L]. rewrite L. simpl.
    repeat split. left. eauto.
  - repeat split. right. split; trivial. intros [_ H].
    apply str_len_is_1 in H. congruence.
  - repeat split. right. split; trivial. tauto.
  - repeat split. right. split; trivial. tauto.
Qed.

Lemma _double_single_alleles_idem df c :
  _double_single_alleles (_double_single_alleles df c) c = _double_single_alleles df c.
Proof.
  unfold _double_single_alleles. rewrite map_map. apply map_ext. intros r.
  unfold double_row.
  destruct ((chrom r =? c)%string && str_len_is 1 (genotype r)) eqn:E; simpl.
  - apply andb_true_iff in E as [_ L]. apply str_len_is_1 in L as [a L].
    rewrite L. simpl. now rewrite andb_false_r.
  - now rewrite E.
Qed.

(** C5.  [_double_single_alleles] replaces the genotype of every record on
    chromosome X that has length 1 by the character repeated twice and changes
    nothing else; [_add_snps] applies it to the table it is given before the
    table is adopted or compared.  Hence, on a table of the data model
    (genotypes of one or two characters), every record on X with a genotype has
    two characters afterwards. *)
Theorem single_alleles_on_X_doubled :
  forall df,
    (forall r, In r df -> genotype_ok (genotype r)) ->
    Forall2 (doubled "X") df (_double_single_alleles df "X") /\
    (forall r', In r' (_double_single_alleles df "X") -> chrom r' = "X" ->
                forall g, genotype r' = Some g -> String.length g = 2%nat) /\
    (forall self pt gt,
        _add_snps self (Some df) pt gt =
        _add_snps self (Some (_double_single_alleles df "X")) pt gt) /\
    (forall self pt gt,
        _snps self = None ->
        _snps (_add_snps self (Some df) pt gt) =
        Some (_sort_snps (_double_single_alleles df "X"))).
Proof.
  intros df Hok. split; [apply _double_single_alleles_rows|]. split; [|split].
  - intros r' Hr' HX g Hg.
    unfold _double_single_alleles in Hr'. apply in_map_iff in Hr' as [r [E Hr]].
    specialize (Hok r Hr). unfold double_row in E.
    destruct (String.eqb_spec (chrom r) "X") as [Ec|Ec];
      destruct (str_len_is 1 (genotype r)) eqn:L; simpl in E; subst r'; simpl in *.
    + apply str_len_is_1 in L as [a L]. rewrite L in Hg. simpl in Hg.
      injection Hg as <-. reflexivity.
    + destruct (Hok g Hg) as [H1|H2]; trivial.
      rewrite Hg in L. simpl in L. apply Nat.eqb_neq in L. contradiction.
    + contradiction.
    + contradiction.
  - intros self pt gt. unfold _add_snps.
    now rewrite _double_single_alleles_idem.
  - intros self pt gt Hnone. now rewrite _add_snps_first.
Qed.

Lemma single_alleles_on_X_doubled_witness :
  _double_single_alleles
    [mkRow "rs1" "X" 100 (Some "A"); mkRow "rs2" "1" 200 (Some "T");
     mkRow "rs3" "X" 300 None; mkRow "rs4" "X" 400 (Some "AG")] "X"
  = [mkRow "rs1" "X" 100 (Some "AA"); mkRow "rs2" "1" 200 (Some "T");
     mkRow "rs3" "X" 300 None; mkRow "rs4" "X" 400 (Some "AG")] /\
  forall r',
    In r' (_double_single_alleles
             [mkRow "rs1" "X" 100 (Some "A"); mkRow "rs2" "1" 200 (Some "T");
              mkRow "rs3" "X" 300 None; mkRow "rs4" "X" 400 (Some "AG")] "X") ->
    chrom r' = "X" -> forall g, genotype r' = Some g -> String.length g = 2%nat.
Proof.
  split; [reflexivity|].
  refine (proj1 (proj2 (@single_alleles_on_X_doubled
    [mkRow "rs1" "X" 100 (Some "A"); mkRow "rs2" "1" 200 (Some "T");
     mkRow "rs3" "X" 300 None; mkRow "rs4" "X" 400 (Some "AG")] _))).
  intros r Hr s Hs. simpl in Hr.
  destruct Hr as [<-|[<-|[<-|[<-|[]]]]]; simpl in Hs;
    try discriminate; injection Hs as <-; simpl; auto.
Defined.

(** ** The canonical order *)




(** ** The canonical order without ties *)

Lemma StronglySorted_perm_eq {A} (R : A -> A -> Prop) (l1 : list A) : forall l2,
  StronglySorted R l1 -> StronglySorted R l2 -> Permutation l1 l2 ->
  (forall a b, In a l1 -> In b l1 -> R a b -> R b a -> a = b) ->
  l1 = l2.
Proof.
  induction l1 as [|a l1 IH]; intros l2 H1 H2 HP Hanti.
  - apply Permutation_nil in HP. now subst.
  - destruct l2 as [|b l2].
    { apply Permutation_sym, Permutation_nil in HP. discriminate. }
    inversion H1 as [|? ? S1 F1]; subst. inversion H2 as [|? ? S2 F2]; subst.
    rewrite Forall_forall in F1, F2.
    assert (Hb : In b (a :: l1))
      by (eapply Permutation_in; [symmetry; exact HP | now left]).
    assert (Ha : In a (b :: l2))
      by (eapply Permutation_in; [exact HP | now left]).
    assert (E : a = b).
    { destruct Hb as [E|Hb]; trivial. destruct Ha as [E|Ha]; [now symmetry|].
      apply Hanti; [now left | now right | now apply F1 | now apply F2]. }
    subst b. f_equal. apply IH; trivial.
    + eapply Permutation_cons_inv; exact HP.
    + intros x y Hx Hy. apply Hanti; now right.
Qed.

Lemma category_code_inj categories x y :
  In x categories ->
  pd.category_code categories x = pd.category_code categories y -> x = y.
Proof.
  induction categories as [|c categories IH]; simpl; [tauto|].
  intros Hin.
  destruct (String.eqb_spec c x), (String.eqb_spec c y); try congruence.
  intros E. injection E as E. apply IH; trivial. destruct Hin; congruence.
Qed.

Lemma sorted_list_perm t t' :
  Permutation t t' -> distinct_keys t -> sorted_list t = sorted_list t'.
Proof.
  intros HP Hk. unfold sorted_list. do 2 f_equal.
  assert (Hin : forall c, In c (map chrom t) <-> In c (map chrom t')).
  { intros c. split; apply Permutation_in; [|symmetry]; now apply Permutation_map. }
  apply StronglySorted_perm_eq with (R := key_le); try apply natural_sorted.
  - eapply Permutation_trans; [apply sorted_perm|].
    eapply Permutation_trans; [|symmetry; apply sorted_perm].
    apply NoDup_Permutation; try apply unique_NoDup.
    intros c. now rewrite !unique_In.
  - intros a b Ha Hb Hab Hba.
    apply sorted_In, unique_In, in_map_iff in Ha as [ra [<- Hra]].
    apply sorted_In, unique_In, in_map_iff in Hb as [rb [<- Hrb]].
    apply Hk; trivial. unfold key_le in *. now apply key_lt_total.
Qed.

Lemma _sort_snps_perm_eq t t' :
  Permutation t t' -> distinct_loci t -> distinct_keys t ->
  _sort_snps t = _sort_snps t'.
Proof.
  intros HP Hl Hk. unfold _sort_snps.
  rewrite <- (sorted_list_perm HP Hk).
  apply StronglySorted_perm_eq
    with (R := no_inversion
                 (fun r => (pd.category_code (sorted_list t) (chrom r), pos r))
                 pd.rank_lt).
  - apply sorted_sorted;
      [apply rank_lt_irrefl | apply rank_lt_trans | apply rank_lt_total].
  - apply sorted_sorted;
      [apply rank_lt_irrefl | apply rank_lt_trans | apply rank_lt_total].
  - unfold pd.sort_values.
    eapply Permutation_trans; [apply sorted_perm|].
    eapply Permutation_trans; [exact HP|]. symmetry. apply sorted_perm.
  - intros a b Ha Hb Hab Hba.
    apply sorted_In in Ha, Hb.
    assert (E : (pd.category_code (sorted_list t) (chrom a), pos a) =
                (pd.category_code (sorted_list t) (chrom b), pos b))
      by (apply rank_lt_total; assumption).
    injection E as Ec Ep.
    apply Hl; trivial.
    apply category_code_inj in Ec; trivial.
    apply sorted_list_In. now apply in_map.
Qed.

Lemma distinct_loci_perm t t' : Permutation t t' -> distinct_loci t -> distinct_loci t'.
Proof.
  intros HP H a b Ha Hb. apply H; eapply Permutation_in; try eassumption;
    now symmetry.
Qed.

Lemma distinct_keys_perm t t' : Permutation t t' -> distinct_keys t -> distinct_keys t'.
Proof.
  intros HP H a b Ha Hb. apply H; eapply Permutation_in; try eassumption;
    now symmetry.
Qed.

Lemma _sort_snps_idem t :
  distinct_loci t -> distinct_keys t -> _sort_snps (_sort_snps t) = _sort_snps t.
Proof.
  intros Hl Hk. symmetry. apply _sort_snps_perm_eq; trivial.
  symmetry. apply _sort_snps_perm.
Qed.

(** Two canonical tables with the same rows and no tie are the same list. *)
Lemma sorted_tables_equal x y :
  Permutation (_sort_snps x) (_sort_snps y) ->
  distinct_loci (_sort_snps x) -> distinct_keys (_sort_snps x) ->
  _sort_snps x = _sort_snps y.
Proof.
  intros HP Hl Hk.
  assert (Hx : Permutation (_sort_snps x) x) by apply _sort_snps_perm.
  apply _sort_snps_perm_eq.
  - eapply Permutation_trans; [symmetry; exact Hx|].
    eapply Permutation_trans; [exact HP|]. apply _sort_snps_perm.
  - eapply distinct_loci_perm; eassumption.
  - eapply distinct_keys_perm; eassumption.
Qed.

(** ** Tables with the same records *)

Lemma unique_index_rows t : unique_index t -> NoDup t.
Proof.
  unfold unique_index, index. apply NoDup_map_inv.
Qed.

Lemma In_loc t r : unique_index t -> (In r t <-> loc t (rsid r) = Some r).
Proof.
  intros H. split; [now apply loc_unique|]. intros E. now apply loc_Some in E.
Qed.

Lemma same_records_perm t1 t2 :
  unique_index t1 -> unique_index t2 -> same_records t1 t2 -> Permutation t1 t2.
Proof.
  intros H1 H2 Hs. apply NoDup_Permutation; try now apply unique_index_rows.
  intros r. now rewrite (In_loc _ H1), (In_loc _ H2), Hs.
Qed.

Lemma filter_nil {A} (f : A -> bool) l :
  (forall x, In x l -> f x = false) -> filter f l = [].
Proof.
  induction l as [|x l IH]; simpl; trivial.
  intros H. rewrite (H x) by auto. auto.
Qed.

Lemma genotype_mask_refl g : genotype_mask g g = false.
Proof.
  destruct (genotype_mask g g) eqn:E; trivial.
  apply genotype_mask_rule in E.
  destruct E as [[a [b [-> [E Hab]]]] | [a [b [c [d [-> [E [H1 _]]]]]]]];
    injection E as <-; try subst; tauto.
Qed.

(** No discrepancy between a table and a table with the same records. *)
Lemma no_discrepancy_with_itself own added :
  unique_index own -> unique_index added -> same_records own added ->
  D_p own added = 0 /\ D_g own added = 0.
Proof.
  intros Ho Ha Hs. unfold D_p, D_g, discrepant_positions, discrepant_genotypes.
  assert (Hj : forall p, In p (pd.join_inner own added) -> fst p = snd p).
  { intros [a b] Hin. apply (join_inner_loc _ _ Ho Ha) in Hin as [H1 H2].
    rewrite Hs in H1. simpl. congruence. }
  rewrite !filter_nil; auto.
  - intros p Hp. apply filter_In in Hp as [Hp _]. apply Hj in Hp.
    unfold genotype_differs. rewrite Hp. apply genotype_mask_refl.
  - intros p Hp. apply Hj in Hp. unfold position_differs. rewrite Hp.
    now rewrite String.eqb_refl, Z.eqb_refl.
Qed.

Lemma merged_with_itself own added :
  unique_index own -> unique_index added -> same_records own added ->
  same_records (_sort_snps (merged own added)) own.
Proof.
  intros Ho Ha Hs k. rewrite loc_sorted_merged by assumption.
  rewrite <- Hs. destruct (loc own k) as [a|] eqn:E; trivial.
  rewrite genotype_mask_refl. apply loc_Some in E as [_ <-].
  unfold pd.first_notnull. f_equal.
  destruct a as [r c p [g|]]; reflexivity.
Qed.

(** C7.  Reconciling the same source table into itself twice yields the same
    accumulated table as reconciling it once: the same record for every rsid,
    hence the same rows, in canonical order both times, and the same list of
    rows where the canonical order leaves no tie.  The second merge meets no
    discrepancy. *)
Theorem reconciliation_idempotent :
  forall name T pt gt,
    unique_index T ->
    exists t1 t2,
      _snps (_add_snps (new_individual name) (Some T) pt gt) = Some t1 /\
      _snps (_add_snps (_add_snps (new_individual name) (Some T) pt gt)
                       (Some T) pt gt) = Some t2 /\
      same_records t2 t1 /\ Permutation t2 t1 /\
      canonical_order t1 /\ canonical_order t2 /\
      D_p t1 (_double_single_alleles T "X") = 0 /\
      D_g t1 (_double_single_alleles T "X") = 0 /\
      (distinct_loci t1 -> distinct_keys t1 -> t2 = t1).
Proof.
  intros name T pt gt HT.
  pose proof (_double_single_alleles_unique "X" HT) as HT'.
  set (T' := _double_single_alleles T "X") in *.
  assert (H1 : unique_index (_sort_snps T')) by now apply _sort_snps_unique.
  assert (Hs : same_records (_sort_snps T') T')
    by (intros k; now apply loc__sort_snps).
  assert (E1 : _add_snps (new_individual name) (Some T) pt gt =
               mkIndividual name (Some (_sort_snps T'))) by reflexivity.
  rewrite E1.
  rewrite (@_add_snps_next (mkIndividual name (Some (_sort_snps T')))
             (_sort_snps T') T pt gt eq_refl). fold T'. simpl.
  assert (Hc : canonical_order (_sort_snps T')) by apply _sort_snps_canonical.
  assert (Hsame : forall k, loc (_sort_snps T') k = loc (_sort_snps T') k)
    by reflexivity.
  destruct (pt <=? D_p (_sort_snps T') T');
    [|destruct (gt <=? D_g (_sort_snps T') T')]; simpl;
    eexists; eexists; (split; [reflexivity|]); (split; [reflexivity|]).
  1,2: repeat split; auto; now apply no_discrepancy_with_itself.
  assert (Hm : same_records (_sort_snps (merged (_sort_snps T') T')) (_sort_snps T'))
    by now apply merged_with_itself.
  assert (HP : Permutation (_sort_snps (merged (_sort_snps T') T')) (_sort_snps T')).
  { apply same_records_perm; trivial. apply _sort_snps_unique, merged_unique. }
  split; [exact Hm|]. split; [exact HP|].
  split; [exact Hc|]. split; [apply _sort_snps_canonical|].
  split; [now apply no_discrepancy_with_itself|].
  split; [now apply no_discrepancy_with_itself|].
  intros Hl Hk. symmetry. apply sorted_tables_equal; trivial. now symmetry.
Qed.

Lemma reconciliation_idempotent_witness :
  _add_snps (_add_snps (new_individual "ind") (Some scenario_own) 100 10000)
            (Some scenario_own) 100 10000
  = _add_snps (new_individual "ind") (Some scenario_own) 100 10000 /\
  exists t1 t2,
    _snps (_add_snps (new_individual "ind") (Some scenario_own) 100 10000) = Some t1 /\
    _snps (_add_snps (_add_snps (new_individual "ind") (Some scenario_own) 100 10000)
                     (Some scenario_own) 100 10000) = Some t2 /\
    same_records t2 t1.
Proof.
  split; [vm_compute; reflexivity|].
  destruct (@reconciliation_idempotent "ind" scenario_own 100 10000)
    as [t1 [t2 [E1 [E2 [Hs _]]]]].
  - unfold unique_index. simpl.
    repeat (constructor; [simpl; intuition discriminate|]). constructor.
  - exists t1, t2. auto.
Defined.

(** ** The order of two loads *)


Lemma double_row_position c r :
  chrom (double_row c r) = chrom r /\ pos (double_row c r) = pos r.
Proof. unfold double_row. now destruct (_ && _). Qed.










Lemma discrepant_rule_sym g h : discrepant_rule g h -> discrepant_rule h g.
Proof.
  intros [[a [b [-> [-> H]]]] | [a [b [c [d [-> [-> [H1 H2]]]]]]]].
  - left. exists b, a. auto.
  - right. exists c, d, a, b. repeat split; intros [-> ->]; tauto.
Qed.

Lemma genotype_mask_sym g h : genotype_mask g h = genotype_mask h g.
Proof.
  apply bool_eq_iff. rewrite !genotype_mask_rule.
  split; apply discrepant_rule_sym.
Qed.







(** ** Loading *)

Lemma _read_raw_data_no_table fs file :
  yields_no_table fs file -> _read_raw_data fs (PyStr file) = Ok None.
Proof.
  unfold yields_no_table, missing_source, unrecognized_format, parse_failure,
    _read_raw_data, _read_23andme, _read_ancestry, _read_ftdna.
  intros [H | [[He [H1 [H2 H3]]] | [He H]]].
  - now rewrite H.
  - now rewrite He, H1, H2, H3.
  - rewrite He. simpl.
    destruct H as [[H1 P] | [[H1 [H2 P]] | [H1 [H2 [H3 P]]]]].
    + now rewrite H1, P.
    + now rewrite H1, H2, P.
    + now rewrite H1, H2, H3, P.
Qed.

Lemma _read_raw_data_str fs file : exists snps, _read_raw_data fs (PyStr file) = Ok snps.
Proof.
  unfold _read_raw_data.
  destruct (negb _); eauto. simpl.
  destruct (contains "23andMe" _); eauto.
  destruct (contains "Ancestry" _); eauto.
  destruct (_ =? _)%string; eauto.
Qed.

Lemma _read_raw_data_other fs file :
  is_str file = false -> _read_raw_data fs file = Raise TypeError.
Proof. destruct file; simpl; congruence. Qed.

Lemma load_files_raises fs raw_data pt gt : forall self,
  snd (load_files fs self raw_data pt gt) = None <-> forallb is_str raw_data = true.
Proof.
  induction raw_data as [|file rest IH]; intros self; simpl; [tauto|].
  destruct (is_str file) eqn:E.
  - destruct file as [f| |]; try discriminate.
    destruct (_read_raw_data_str fs f) as [snps ->]. apply IH.
  - rewrite _read_raw_data_other by assumption. simpl. split; discriminate.
Qed.

Lemma list_of_paths l :
  (exists files, l = map PyStr files) <-> forallb is_str l = true.
Proof.
  induction l as [|v l IH]; simpl.
  - split; trivial. intros _. now exists [].
  - rewrite andb_true_iff, <- IH. split.
    + intros [[|f files] E]; [discriminate|]. injection E as -> ->. eauto.
    + intros [Hv [files ->]]. destruct v; try discriminate.
      now exists (s :: files).
Qed.




(** ** The [snps] property *)

Lemma load_files_no_table fs files pt gt : forall self,
  (forall f, In f files -> yields_no_table fs f) ->
  load_files fs self (map PyStr files) pt gt = (self, None).
Proof.
  induction files as [|f files IH]; intros self H; simpl; trivial.
  pose proof (_read_raw_data_no_table (H f (or_introl eq_refl))) as E.
  unfold _read_raw_data in E. rewrite E. simpl. apply IH.
  intros g Hg. apply H. now right.
Qed.

Lemma deref_update_other h a a' t :
  a <> a' -> Ref.deref (Ref.update h a' t) a = Ref.deref h a.
Proof.
  unfold Ref.deref. revert a a'.
  induction h as [|x h IH]; intros a a' Hne; simpl.
  - now destruct a'.
  - destruct a' as [|a'], a as [|a]; simpl; trivial; try congruence.
    apply IH. congruence.
Qed.

Lemma snps_copy h o a t :
  Ref.obj_snps o = Some a -> Ref.deref h a = Some t ->
  Ref.snps h o = (Some (List.length h), (h ++ [t])%list) /\
  List.length h <> a /\
  Ref.deref h (List.length h) = None /\
  Ref.deref (h ++ [t])%list (List.length h) = Some t /\
  (forall x y, Ref.deref h x = Some y -> Ref.deref (h ++ [t])%list x = Some y) /\
  (forall t2, Ref.deref (Ref.update (h ++ [t])%list (List.length h) t2) a = Some t).
Proof.
  intros Ho Ha. unfold Ref.snps, Ref.alloc. rewrite Ho, Ha.
  assert (Hlt : (a < List.length h)%nat).
  { apply nth_error_Some. unfold Ref.deref in Ha. congruence. }
  assert (Hold : forall x y, Ref.deref h x = Some y ->
                            Ref.deref (h ++ [t])%list x = Some y).
  { unfold Ref.deref. intros x y Hx. rewrite nth_error_app1; trivial.
    apply nth_error_Some. congruence. }
  repeat split; trivial.
  - lia.
  - unfold Ref.deref. now apply nth_error_None.
  - unfold Ref.deref. rewrite nth_error_app2, Nat.sub_diag by lia. reflexivity.
  - intros t2. rewrite deref_update_other by lia. now apply Hold.
Qed.

(** C10.  An individual on which no load has succeeded — a new one without
    raw data, or one whose files were all missing, unrecognized or failed to
    parse — reads [None] through [snps], not an empty table; no merge is
    aborted on such an individual, the first table read is adopted.  Once a
    table is owned, every read returns its rows, and on objects a copy at a
    reference of its own: writing through it leaves the owned table as it
    was. *)
Theorem snps_is_none_until_a_load_succeeds :
  (forall fs name,
      __init__ fs name None = (new_individual name, None) /\
      snps (new_individual name) = None) /\
  (forall fs self files pt gt,
      _snps self = None ->
      (forall f, In f files -> yields_no_table fs f) ->
      snps (fst (load_snps fs self (PyList (map PyStr files)) pt gt)) = None) /\
  (forall fs self file pt gt,
      _snps self = None -> yields_no_table fs file ->
      snps (fst (load_snps fs self (PyStr file) pt gt)) = None) /\
  (forall fs name files,
      (forall f, In f files -> yields_no_table fs f) ->
      snps (fst (__init__ fs name (Some (PyList (map PyStr files))))) = None) /\
  (forall self t pt gt,
      _snps self = None ->
      snps (_add_snps self (Some t) pt gt) =
      Some (_sort_snps (_double_single_alleles t "X"))) /\
  (forall self t, _snps self = Some t -> snps self = Some t) /\
  (forall h o, Ref.obj_snps o = None -> Ref.snps h o = (None, h)) /\
  (forall h o a t,
      Ref.obj_snps o = Some a -> Ref.deref h a = Some t ->
      exists a' h',
        Ref.snps h o = (Some a', h') /\
        a' <> a /\ Ref.deref h a' = None /\
        Ref.deref h' a' = Some t /\ Ref.deref h' a = Some t /\
        snps (Ref.attrs h o) = Ref.deref h' a' /\
        Ref.attrs h' o = Ref.attrs h o /\
        (forall t2, Ref.deref (Ref.update h' a' t2) a = Some t) /\
        exists a'' h'',
          Ref.snps h' o = (Some a'', h'') /\ a'' <> a' /\ a'' <> a /\
          Ref.deref h'' a'' = Some t).
Proof.
  split; [|split; [|split; [|split; [|split; [|split; [|split]]]]]].
  - intros fs name. split; reflexivity.
  - intros fs self files pt gt Hn H. simpl.
    rewrite load_files_no_table by assumption. simpl. unfold snps. now rewrite Hn.
  - intros fs self file pt gt Hn H.
    pose proof (_read_raw_data_no_table H) as E.
    unfold load_snps. rewrite E. simpl.
    unfold snps. now rewrite Hn.
  - intros fs name files H. simpl.
    now rewrite load_files_no_table by assumption.
  - intros self t pt gt Hn. now rewrite _add_snps_first.
  - intros self t Ht. unfold snps. now rewrite Ht.
  - intros h o Ho. unfold Ref.snps. now rewrite Ho.
  - intros h o a t Ho Ha.
    destruct (snps_copy h o Ho Ha) as [E [Hne [Hfresh [Hcopy [Hold Hwrite]]]]].
    exists (List.length h), (h ++ [t])%list.
    assert (Ha' : Ref.deref (h ++ [t])%list a = Some t) by now apply Hold.
    repeat split; trivial.
    + unfold snps, Ref.attrs. simpl. rewrite Ho, Ha, Hcopy. reflexivity.
    + unfold Ref.attrs. now rewrite Ho, Ha, Ha'.
    + destruct (snps_copy (h ++ [t])%list o Ho Ha')
        as [E2 [Hne2 [_ [Hcopy2 _]]]].
      do 2 eexists. split; [exact E2|].
      rewrite length_app in *. simpl in *.
      repeat split; trivial; lia.
Qed.

Lemma snps_is_none_until_a_load_succeeds_witness :
  snps (fst (load_snps example_fs (new_individual "ind")
               (PyList (map PyStr ["missing.txt"; "notes.txt"; "broken.csv"]))
               100 10000)) = None.
Proof.
  refine (proj1 (proj2 snps_is_none_until_a_load_succeeds) example_fs
            (new_individual "ind") ["missing.txt"; "notes.txt"; "broken.csv"]
            100 10000 eq_refl _).
  intros f [<-|[<-|[<-|[]]]].
  - left. reflexivity.
  - right. left. repeat split.
  - right. right. split; [reflexivity|]. right. right. repeat split.
Defined.

(** * Further properties *)

(** ** Natural sort keys *)


Lemma re_split_digits s : forall cur,
  forallb is_digit (list_ascii_of_string s) = true ->
  re_split s cur true = [cur ++ s; EmptyString].
Proof.
  induction s as [|c s IH]; intros cur H; simpl in *.
  - f_equal. induction cur; simpl; congruence.
  - apply andb_true_iff in H as [Hc Hs]. rewrite Hc, IH by assumption.
    f_equal. induction cur; simpl; congruence.
Qed.

Lemma natural_sort_key_digits s :
  isdigit s = true ->
  _natural_sort_key s = [TStr EmptyString; TInt (int_of s); TStr EmptyString].
Proof.
  intros H. unfold _natural_sort_key.
  destruct s as [|c s]; [discriminate|].
  unfold isdigit in H. simpl in H. apply andb_true_iff in H as [Hc Hs].
  simpl. rewrite Hc, re_split_digits by assumption. simpl.
  now rewrite Hc, Hs.
Qed.

(** X2.  Two labels made of digits only are ordered by their value as
    numbers, not as strings: 2 comes before 10, and 01 ties with 1. *)
Theorem digit_labels_ordered_by_value :
  forall a b,
    isdigit a = true -> isdigit b = true ->
    key_lt (_natural_sort_key a) (_natural_sort_key b) = (int_of a <? int_of b)%N.
Proof.
  intros a b Ha Hb. rewrite !natural_sort_key_digits by assumption.
  unfold key_lt. simpl.
  destruct (N.eqb_spec (int_of a) (int_of b)) as [E|E]; trivial.
  rewrite E. symmetry. apply N.ltb_irrefl.
Qed.

Lemma digit_labels_ordered_by_value_witness :
  key_lt (_natural_sort_key "2") (_natural_sort_key "10") = true /\
  str_lt "2" "10" = false /\
  key_lt (_natural_sort_key "01") (_natural_sort_key "1") = false /\
  key_lt (_natural_sort_key "1") (_natural_sort_key "01") = false.
Proof.
  rewrite (@digit_labels_ordered_by_value "2" "10" eq_refl eq_refl).
  rewrite (@digit_labels_ordered_by_value "01" "1" eq_refl eq_refl).
  rewrite (@digit_labels_ordered_by_value "1" "01" eq_refl eq_refl).
  repeat split.
Defined.

(** ** Case of the labels *)

Lemma code_ascii_of_N n : (n < 256)%N -> code (ascii_of_N n) = n.
Proof. apply N_ascii_embedding. Qed.

Lemma code_bound c : (code c < 256)%N.
Proof. apply N_ascii_bounded. Qed.

Lemma lower_char_digit c : is_digit (lower_char c) = is_digit c.
Proof.
  unfold lower_char, is_digit.
  destruct ((65 <=? code c)%N && (code c <=? 90)%N) eqn:U; trivial.
  apply andb_true_iff in U as [U1 U2]. apply N.leb_le in U1, U2.
  rewrite code_ascii_of_N by lia.
  replace (code c <=? 57)%N with false by (symmetry; apply N.leb_gt; lia).
  replace (code c + 32 <=? 57)%N with false by (symmetry; apply N.leb_gt; lia).
  now rewrite !andb_false_r.
Qed.

Lemma lower_char_not_upper c :
  ((65 <=? code (lower_char c)) && (code (lower_char c) <=? 90))%N = false.
Proof.
  unfold lower_char.
  destruct ((65 <=? code c)%N && (code c <=? 90)%N) eqn:U; trivial.
  apply andb_true_iff in U as [U1 U2]. apply N.leb_le in U1, U2.
  rewrite code_ascii_of_N by lia.
  replace (code c + 32 <=? 90)%N with false by (symmetry; apply N.leb_gt; lia).
  apply andb_false_r.
Qed.

Lemma lower_char_idem c : lower_char (lower_char c) = lower_char c.
Proof.
  set (d := lower_char c). unfold lower_char. subst d.
  now rewrite lower_char_not_upper.
Qed.

Lemma lower_cons c s : lower (String c s) = String (lower_char c) (lower s).
Proof. reflexivity. Qed.

Lemma lower_app a b : lower (a ++ b) = (lower a ++ lower b)%string.
Proof.
  induction a as [|c a IH]; trivial.
  change ((String c a ++ b)%string) with (String c (a ++ b)).
  rewrite !lower_cons, IH. reflexivity.
Qed.

Lemma lower_idem s : lower (lower s) = lower s.
Proof.
  induction s as [|c s IH]; trivial.
  now rewrite !lower_cons, lower_char_idem, IH.
Qed.

Lemma list_ascii_lower s :
  list_ascii_of_string (lower s) = map lower_char (list_ascii_of_string s).
Proof.
  unfold lower. apply list_ascii_of_string_of_list_ascii.
Qed.

Lemma isdigit_lower s : isdigit (lower s) = isdigit s.
Proof.
  destruct s as [|c s]; trivial.
  rewrite lower_cons. unfold isdigit.
  change (list_ascii_of_string (String (lower_char c) (lower s)))
    with (lower_char c :: list_ascii_of_string (lower s)).
  rewrite list_ascii_lower. simpl. rewrite lower_char_digit. f_equal.
  induction (list_ascii_of_string s) as [|d l IH]; simpl; trivial.
  now rewrite lower_char_digit, IH.
Qed.

Lemma lower_digits s : isdigit s = true -> lower s = s.
Proof.
  destruct s as [|c s]; trivial. unfold isdigit.
  change (list_ascii_of_string (String c s)) with (c :: list_ascii_of_string s).
  revert c. induction s as [|d s IH]; intros c H; simpl in H.
  - rewrite andb_true_r in H. rewrite lower_cons. f_equal.
    unfold lower_char. unfold is_digit in H.
    apply andb_true_iff in H as [H1 H2]. apply N.leb_le in H1, H2.
    replace (65 <=? code c)%N with false by (symmetry; apply N.leb_gt; lia).
    reflexivity.
  - apply andb_true_iff in H as [Hc H]. rewrite lower_cons. f_equal.
    + unfold lower_char. unfold is_digit in Hc.
      apply andb_true_iff in Hc as [H1 H2]. apply N.leb_le in H1, H2.
      replace (65 <=? code c)%N with false by (symmetry; apply N.leb_gt; lia).
      reflexivity.
    + apply IH. exact H.
Qed.

Lemma re_split_lower s : forall cur dig,
  re_split (lower s) (lower cur) dig = map lower (re_split s cur dig).
Proof.
  induction s as [|c s IH]; intros cur dig.
  - simpl. destruct dig; reflexivity.
  - rewrite lower_cons. simpl. rewrite lower_char_digit.
    destruct (is_digit c), dig; simpl.
    + rewrite <- IH, lower_app. reflexivity.
    + f_equal. apply (IH (String c EmptyString)).
    + f_equal. apply (IH (String c EmptyString)).
    + rewrite <- IH, lower_app. reflexivity.
Qed.

(** X3.  The key of a label does not depend on the case of its letters: a
    label and its lower-case form have the same key, so labels that differ in
    case only tie in the natural order. *)
Theorem natural_sort_key_ignores_case :
  forall s, _natural_sort_key (lower s) = _natural_sort_key s.
Proof.
  intros s. unfold _natural_sort_key.
  change EmptyString with (lower EmptyString) at 1.
  rewrite re_split_lower, map_map. apply map_ext. intros text.
  rewrite isdigit_lower. destruct (isdigit text) eqn:D.
  - now rewrite lower_digits.
  - now rewrite lower_idem.
Qed.

(** ** Sorting *)

(** X4.  [_sort_snps] only reorders: the sorted table has the rows of the
    table, each as often, and a table with one record per rsid keeps that and
    the record of every rsid. *)
Theorem sorting_only_reorders :
  forall t,
    Permutation (_sort_snps t) t /\
    List.length (_sort_snps t) = List.length t /\
    (unique_index t -> unique_index (_sort_snps t)) /\
    (unique_index t -> forall k, loc (_sort_snps t) k = loc t k).
Proof.
  intros t. split; [apply _sort_snps_perm|]. split; [|split].
  - apply Permutation_length, _sort_snps_perm.
  - apply _sort_snps_unique.
  - intros H k. now apply loc__sort_snps.
Qed.

Lemma sorting_only_reorders_witness :
  unique_index (_sort_snps scenario_own).
Proof.
  refine (proj1 (proj2 (proj2 (sorting_only_reorders scenario_own))) _).
  unfold unique_index. simpl. repeat constructor; simpl; intuition discriminate.
Defined.

Section SortedAgain.
Variable A K : Type.
Variable key : A -> K.
Variable lt : K -> K -> bool.
Hypothesis lt_irrefl : forall x, lt x x = false.
Hypothesis lt_trans : forall x y z, lt x y = true -> lt y z = true -> lt x z = true.
Hypothesis lt_total : forall x y, lt x y = false -> lt y x = false -> x = y.

Lemma insert_by_front x l :
  Forall (no_inversion key lt x) l -> insert_by key lt x l = x :: l.
Proof.
  destruct l as [|y l]; trivial. intros H. inversion H as [|? ? Hy _]; subst.
  simpl. unfold no_inversion in Hy. now rewrite Hy.
Qed.

Lemma sorted_of_sorted l :
  StronglySorted (no_inversion key lt) l -> sorted key lt l = l.
Proof.
  induction 1 as [|x l Hs IH Hall]; simpl; trivial.
  rewrite IH. now apply insert_by_front.
Qed.

Lemma filter_insert_by f x l :
  StronglySorted (no_inversion key lt) l ->
  filter f (insert_by key lt x l) =
  if f x then insert_by key lt x (filter f l) else filter f l.
Proof.
  induction 1 as [|y l Hs IH Hall]; simpl.
  - now destruct (f x).
  - destruct (lt (key y) (key x)) eqn:Hyx; simpl.
    + rewrite IH. destruct (f y), (f x); simpl; rewrite ?Hyx; trivial.
    + destruct (f x) eqn:Fx, (f y) eqn:Fy; simpl; rewrite ?Hyx; trivial.
      symmetry. apply insert_by_front.
      rewrite Forall_forall in *. intros z Hz. apply filter_In in Hz as [Hz _].
      unfold no_inversion in *.
      eapply not_lt_trans with (y := key y); eauto.
Qed.

Lemma filter_sorted f l :
  filter f (sorted key lt l) = sorted key lt (filter f l).
Proof.
  induction l as [|x l IH]; simpl; trivial.
  rewrite filter_insert_by by now apply sorted_sorted.
  rewrite IH. now destruct (f x).
Qed.
End SortedAgain.

Lemma StronglySorted_impl_In {A} (R R' : A -> A -> Prop) l :
  (forall a b, In a l -> In b l -> R a b -> R' a b) ->
  StronglySorted R l -> StronglySorted R' l.
Proof.
  intros HR Hs. induction Hs as [|a l Hs IH Hall]; constructor.
  - apply IH. intros x y Hx Hy. apply HR; now right.
  - rewrite Forall_forall in *. intros x Hx. apply HR; [now left | now right | auto].
Qed.

Lemma StronglySorted_map {A B} (f : A -> B) (R : B -> B -> Prop) l :
  StronglySorted (fun a b => R (f a) (f b)) l -> StronglySorted R (map f l).
Proof.
  induction 1 as [|a l Hs IH Hall]; simpl; constructor; trivial.
  rewrite Forall_forall in *. intros y Hy.
  apply in_map_iff in Hy as [x [<- Hx]]. auto.
Qed.

Lemma categories_sorted categories :
  NoDup categories -> StronglySorted (code_le categories) categories.
Proof.
  induction 1 as [|c cs Hc Hnd IH]; constructor.
  - eapply StronglySorted_impl_In; [|exact IH].
    intros a b Ha Hb. unfold code_le. simpl.
    destruct (String.eqb_spec c a), (String.eqb_spec c b); subst;
      try contradiction; lia.
  - rewrite Forall_forall. intros x Hx. unfold code_le. simpl.
    rewrite String.eqb_refl. lia.
Qed.

Lemma unique_sorted (R : string -> string -> Prop) l :
  StronglySorted R l -> StronglySorted R (pd.unique l).
Proof.
  induction 1 as [|x l Hs IH Hall]; simpl; [constructor|].
  constructor.
  - now apply StronglySorted_filter.
  - rewrite Forall_forall in *. intros y Hy.
    apply filter_In in Hy as [Hy _]. rewrite unique_In in Hy. now apply Hall.
Qed.

(** The chromosomes of a sorted table, each once, are its categories. *)
Lemma unique_chrom_sorted t :
  pd.unique (map chrom (_sort_snps t)) = sorted_list t.
Proof.
  apply StronglySorted_perm_eq with (R := code_le (sorted_list t)).
  - apply unique_sorted, StronglySorted_map.
    eapply StronglySorted_impl; [|apply sort_values_sorted].
    unfold row_le, code_le. intros a b. lia.
  - apply categories_sorted, sorted_list_NoDup.
  - apply NoDup_Permutation; [apply unique_NoDup | apply sorted_list_NoDup |].
    intros c. rewrite unique_In, sorted_list_In.
    split; apply Permutation_in; apply Permutation_map;
      [|symmetry]; apply _sort_snps_perm.
  - intros a b Ha Hb Hab Hba. unfold code_le in *.
    rewrite unique_In in Ha.
    apply category_code_inj with (categories := sorted_list t); [|lia].
    apply sorted_list_In.
    eapply Permutation_in; [|exact Ha].
    apply Permutation_map, _sort_snps_perm.
Qed.

Lemma filter_filter_absent x y l :
  x <> y ->
  existsb (fun z => (z =? y)%string)
          (filter (fun z => negb (z =? x)%string) l) =
  existsb (fun z => (z =? y)%string) l.
Proof.
  intros Hne. apply bool_eq_iff.
  rewrite !existsb_eqb_In, filter_In, negb_true_iff, String.eqb_neq.
  intuition congruence.
Qed.

Lemma filter_flag_other x y (b : bool) :
  x <> y ->
  filter (fun z => negb (z =? x)%string) (if b then [y] else []) =
  if b then [y] else [].
Proof.
  intros H. destruct b; simpl; trivial.
  destruct (String.eqb_spec y x); [congruence | reflexivity].
Qed.

Lemma filter_flag_same x (b : bool) :
  filter (fun z => negb (z =? x)%string) (if b then [x] else []) = [].
Proof. destruct b; simpl; trivial. now rewrite String.eqb_refl. Qed.

Lemma existsb_flag x y (b : bool) :
  x <> y -> existsb (fun z => (z =? x)%string) (if b then [y] else []) = false.
Proof.
  intros H. destruct b; simpl; trivial.
  destruct (String.eqb_spec y x); [congruence | reflexivity].
Qed.

Lemma sorted_list_again t : sorted_list (_sort_snps t) = sorted_list t.
Proof.
  unfold sorted_list at 1. rewrite unique_chrom_sorted.
  destruct (sorted_list_order (Permutation_refl t))
    as [_ [_ [natural [E [HP [HM Hs]]]]]].
  set (bP := existsb (fun r => (chrom r =? "PAR")%string) t) in *.
  set (bM := existsb (fun r => (chrom r =? "MT")%string) t) in *.
  set (S := sorted _natural_sort_key key_lt (sorted_list t)).
  assert (HS : forall c, In c S <-> In c (sorted_list t))
    by (intros c; apply sorted_In).
  assert (Hnat : filter (fun y => negb (y =? "MT")%string)
                   (filter (fun y => negb (y =? "PAR")%string) S) = natural).
  { unfold S.
    rewrite !(@filter_sorted _ _ _natural_sort_key key_lt
                key_lt_irrefl key_lt_trans key_lt_total).
    rewrite E, !filter_app.
    rewrite (@filter_absent "PAR" natural HP), filter_flag_same.
    rewrite (@filter_flag_other "PAR" "MT") by discriminate.
    rewrite (@filter_absent "MT" natural HM), filter_flag_same.
    simpl. rewrite app_nil_r. now apply sorted_of_sorted. }
  assert (EP : existsb (fun y => (y =? "PAR")%string) S = bP).
  { apply bool_eq_iff. unfold bP.
    now rewrite existsb_eqb_In, HS, sorted_list_In, existsb_chrom_In. }
  assert (EM : existsb (fun y => (y =? "MT")%string) S = bM).
  { apply bool_eq_iff. unfold bM.
    now rewrite existsb_eqb_In, HS, sorted_list_In, existsb_chrom_In. }
  fold S.
  rewrite (move_to_end_eq "MT"), (move_to_end_eq "PAR").
  rewrite filter_app, <- app_assoc, Hnat, EP.
  rewrite filter_flag_other by discriminate.
  rewrite existsb_app, filter_filter_absent, EM by discriminate.
  rewrite existsb_flag by discriminate.
  rewrite orb_false_r. symmetry. exact E.
Qed.

(** X5.  [_sort_snps] is idempotent: sorting a sorted table gives the same
    list of rows, with the same chromosome order. *)
Theorem sorting_twice_is_sorting_once :
  forall t,
    sorted_list (_sort_snps t) = sorted_list t /\
    _sort_snps (_sort_snps t) = _sort_snps t.
Proof.
  intros t. split; [apply sorted_list_again|].
  unfold _sort_snps at 1. rewrite sorted_list_again.
  unfold pd.sort_values. apply sorted_of_sorted.
  apply sorted_sorted;
    [apply rank_lt_irrefl | apply rank_lt_trans | apply rank_lt_total].
Qed.

(** ** The genotype comparison *)

(** X6.  The comparison of two genotypes is symmetric, never finds a genotype
    discrepant with itself, and does not depend on the order of the two
    alleles of either side. *)
Theorem genotype_comparison_ignores_order :
  (forall g h, genotype_mask g h = genotype_mask h g) /\
  (forall g, genotype_mask g g = false) /\
  (forall a b h,
      genotype_mask (Some (String a (String b EmptyString))) h =
      genotype_mask (Some (String b (String a EmptyString))) h) /\
  (forall a b g,
      genotype_mask g (Some (String a (String b EmptyString))) =
      genotype_mask g (Some (String b (String a EmptyString)))).
Proof.
  assert (Hswap : forall a b h,
      genotype_mask (Some (String a (String b EmptyString))) h =
      genotype_mask (Some (String b (String a EmptyString))) h).
  { intros a b h. unfold genotype_mask.
    destruct h as [[|c [|d [|e s]]]|]; simpl; trivial.
    destruct (Ascii.eqb a c), (Ascii.eqb b d), (Ascii.eqb a d), (Ascii.eqb b c);
      reflexivity. }
  split; [apply genotype_mask_sym|]. split; [apply genotype_mask_refl|].
  split; [exact Hswap|].
  intros a b g. now rewrite !(genotype_mask_sym g), Hswap.
Qed.

(** ** Doubling *)

Lemma double_row_other c r : chrom r <> c -> double_row c r = r.
Proof.
  intros H. unfold double_row.
  destruct (String.eqb_spec (chrom r) c); [contradiction | reflexivity].
Qed.

Lemma double_row_commute c1 c2 r :
  double_row c1 (double_row c2 r) = double_row c2 (double_row c1 r).
Proof.
  destruct (string_dec c1 c2) as [->|Hne]; trivial.
  destruct (string_dec (chrom r) c1) as [E1|N1].
  - assert (N2 : chrom r <> c2) by congruence.
    rewrite (@double_row_other c2 r N2).
    symmetry. apply double_row_other.
    destruct (double_row_position c1 r) as [-> _]. exact N2.
  - rewrite (@double_row_other c1 r N1).
    apply double_row_other.
    destruct (double_row_position c2 r) as [-> _]. exact N1.
Qed.

(** X7.  [_double_single_alleles] is idempotent; it keeps the rsids, the
    chromosomes and the positions in their order, leaves every row of another
    chromosome as it is, and two doublings for two chromosomes may be done in
    either order. *)
Theorem doubling_is_idempotent :
  forall df c,
    _double_single_alleles (_double_single_alleles df c) c =
      _double_single_alleles df c /\
    index (_double_single_alleles df c) = index df /\
    map chrom (_double_single_alleles df c) = map chrom df /\
    map pos (_double_single_alleles df c) = map pos df /\
    (forall r, In r df -> chrom r <> c -> In r (_double_single_alleles df c)) /\
    (forall c', _double_single_alleles (_double_single_alleles df c) c' =
                _double_single_alleles (_double_single_alleles df c') c).
Proof.
  intros df c.
  split; [apply _double_single_alleles_idem|].
  split; [apply _double_single_alleles_index|].
  unfold _double_single_alleles. rewrite !map_map.
  split; [|split; [|split]].
  - apply map_ext. intros r. apply double_row_position.
  - apply map_ext. intros r. apply double_row_position.
  - intros r Hr Hc. apply in_map_iff. exists r. split; trivial.
    now apply double_row_other.
  - intros c'. rewrite !map_map. apply map_ext. intros r.
    apply double_row_commute.
Qed.

Lemma doubling_is_idempotent_witness :
  In (mkRow "rs2" "1" 200 (Some "T"))
     (_double_single_alleles
        [mkRow "rs1" "X" 100 (Some "A"); mkRow "rs2" "1" 200 (Some "T")] "X").
Proof.
  refine (proj1 (proj2 (proj2 (proj2 (proj2
            (doubling_is_idempotent
               [mkRow "rs1" "X" 100 (Some "A"); mkRow "rs2" "1" 200 (Some "T")]
               "X"))))) _ _ _).
  - simpl. auto.
  - simpl. discriminate.
Defined.

(** ** What a merge never does *)

Lemma D_p_nonneg own snps : 0 <= D_p own snps.
Proof. unfold D_p. lia. Qed.

Lemma D_g_nonneg own snps : 0 <= D_g own snps.
Proof. unfold D_g. lia. Qed.

(** X8.  With a threshold of zero or less, every merge into an existing table
    is aborted, whatever the two tables hold: the count of discrepancies, even
    zero, reaches the threshold. *)
Theorem nonpositive_threshold_aborts_every_merge :
  forall self own snps pt gt,
    _snps self = Some own ->
    pt <= 0 \/ gt <= 0 ->
    _add_snps self (Some snps) pt gt = self.
Proof.
  intros self own snps pt gt Hown H.
  apply _add_snps_abort with (own := own); trivial.
  pose proof (D_p_nonneg own (_double_single_alleles snps "X")).
  pose proof (D_g_nonneg own (_double_single_alleles snps "X")).
  lia.
Qed.

Lemma nonpositive_threshold_aborts_every_merge_witness :
  _add_snps (mkIndividual "ind" (Some scenario_own)) (Some scenario_added) 0 10000
  = mkIndividual "ind" (Some scenario_own).
Proof.
  refine (@nonpositive_threshold_aborts_every_merge
            (mkIndividual "ind" (Some scenario_own)) scenario_own
            scenario_added 0 10000 eq_refl _).
  left. lia.
Defined.



Lemma _add_snps_unique self snps pt gt :
  (forall t, _snps self = Some t -> unique_index t) ->
  (forall t, snps = Some t -> unique_index t) ->
  forall t, _snps (_add_snps self snps pt gt) = Some t -> unique_index t.
Proof.
  intros Hself Hsnps t Ht.
  destruct snps as [snps|]; [|now apply Hself].
  specialize (Hsnps snps eq_refl).
  destruct (_snps self) as [own|] eqn:Hown.
  - rewrite (@_add_snps_next self own snps pt gt Hown) in Ht. simpl in Ht.
    destruct (pt <=? _); [rewrite Hown in Ht; now apply Hself|].
    destruct (gt <=? _); [rewrite Hown in Ht; now apply Hself|].
    injection Ht as <-. apply _sort_snps_unique, merged_unique.
  - rewrite _add_snps_first in Ht by assumption. injection Ht as <-.
    now apply _sort_snps_unique, _double_single_alleles_unique.
Qed.

(** X10.  One record per rsid is an invariant: as long as every table read
    has one record per rsid, so has the accumulated table in every state. *)
Theorem one_record_per_rsid_is_kept :
  forall self,
    reachable_unique self ->
    forall t, _snps self = Some t -> unique_index t.
Proof.
  induction 1 as [name|self snps pt gt Hr IH Hs]; intros t Ht.
  - discriminate.
  - exact (@_add_snps_unique self snps pt gt IH Hs t Ht).
Qed.

Lemma one_record_per_rsid_is_kept_witness :
  exists t,
    _snps (_add_snps (_add_snps (new_individual "ind") (Some scenario_own) 100 10000)
                     (Some scenario_added) 100 10000) = Some t /\
    unique_index t.
Proof.
  eexists. split; [vm_compute; reflexivity|].
  refine (@one_record_per_rsid_is_kept
            (_add_snps (_add_snps (new_individual "ind") (Some scenario_own)
                                  100 10000)
                       (Some scenario_added) 100 10000) _ _ eq_refl).
  apply reach_unique_add; [apply reach_unique_add; [apply reach_unique_new|]|];
    intros t Ht; injection Ht as <-; unfold unique_index; simpl;
    repeat (constructor; [simpl; intuition discriminate|]); constructor.
Defined.

(** ** Tables without a common key *)






(** ** The two counts *)

Lemma NoDup_join_inner own added :
  NoDup own -> NoDup added -> NoDup (pd.join_inner own added).
Proof.
  intros Ho Ha. unfold pd.join_inner.
  induction Ho as [|a own Hnotin Hnd IH]; simpl; [constructor|].
  apply NoDup_app; trivial.
  - apply Finite.Injective_map_NoDup; [|now apply NoDup_filter].
    intros x y E. now injection E.
  - intros [x y] H1 H2. apply in_map_iff in H1 as [b [E _]].
    injection E as <- <-.
    apply in_flat_map in H2 as [a' [Ha' H2]].
    apply in_map_iff in H2 as [b' [E _]]. injection E as <- <-.
    contradiction.
Qed.

Lemma filter_perm {A} (f : A -> bool) l l' :
  Permutation l l' -> Permutation (filter f l) (filter f l').
Proof.
  induction 1 as [|x l l' HP IH|x y l|l l' l'' H1 IH1 H2 IH2]; simpl.
  - constructor.
  - destruct (f x); auto.
  - destruct (f x), (f y); auto. apply perm_swap.
  - eapply Permutation_trans; eassumption.
Qed.

Lemma join_inner_swap own added :
  unique_index own -> unique_index added ->
  Permutation (pd.join_inner own added)
              (map swap_sides (pd.join_inner added own)).
Proof.
  intros Ho Ha. apply NoDup_Permutation.
  - apply NoDup_join_inner; now apply unique_index_rows.
  - apply Finite.Injective_map_NoDup.
    + intros [a b] [c d] E. unfold swap_sides in E. simpl in E. congruence.
    + apply NoDup_join_inner; now apply unique_index_rows.
  - intros [a b]. rewrite join_inner_In, in_map_iff. split.
    + intros [H1 [H2 E]]. exists (b, a). split; trivial.
      apply join_inner_In. auto.
    + intros [[c d] [E H]]. unfold swap_sides in E. simpl in E.
      injection E as -> ->. apply join_inner_In in H as [H1 [H2 E]]. auto.
Qed.

Lemma position_differs_swap p : position_differs (swap_sides p) = position_differs p.
Proof.
  unfold position_differs, swap_sides. simpl.
  now rewrite String.eqb_sym, Z.eqb_sym.
Qed.

Lemma both_notnull_swap p : both_notnull (swap_sides p) = both_notnull p.
Proof.
  unfold both_notnull, swap_sides. simpl.
  now destruct (genotype (fst p)), (genotype (snd p)).
Qed.

Lemma genotype_differs_swap p : genotype_differs (swap_sides p) = genotype_differs p.
Proof.
  unfold genotype_differs, swap_sides. simpl. apply genotype_mask_sym.
Qed.

Lemma filter_map_swap f l :
  (forall p, f (swap_sides p) = f p) ->
  filter f (map swap_sides l) = map swap_sides (filter f l).
Proof.
  intros Hf. induction l as [|p l IH]; simpl; trivial.
  rewrite Hf. destruct (f p); simpl; now rewrite IH.
Qed.

Lemma counts_swap own added :
  unique_index own -> unique_index added ->
  D_p own added = D_p added own /\ D_g own added = D_g added own.
Proof.
  intros Ho Ha.
  pose proof (join_inner_swap Ho Ha) as HP.
  unfold D_p, D_g, discrepant_positions, discrepant_genotypes. split; f_equal.
  - rewrite (Permutation_length (filter_perm position_differs HP)).
    rewrite filter_map_swap by apply position_differs_swap.
    apply length_map.
  - rewrite (Permutation_length
               (filter_perm genotype_differs (filter_perm both_notnull HP))).
    rewrite !filter_map_swap
      by (apply both_notnull_swap || apply genotype_differs_swap).
    apply length_map.
Qed.

(** X12.  The two counts do not depend on which of the two tables is the
    accumulated one: as many keys are discrepant in position, and as many in
    genotype, when the two tables change places. *)
Theorem discrepancy_counts_are_symmetric :
  forall own added,
    unique_index own -> unique_index added ->
    D_p own added = D_p added own /\ D_g own added = D_g added own.
Proof. exact counts_swap. Qed.

Lemma discrepancy_counts_are_symmetric_witness :
  D_p (simulate_snps 3 0) (simulate_snps 5 1) = 3 /\
  D_p (simulate_snps 5 1) (simulate_snps 3 0) = 3.
Proof.
  destruct (@discrepancy_counts_are_symmetric (simulate_snps 3 0) (simulate_snps 5 1)
              (simulate_snps_unique 3 0) (simulate_snps_unique 5 1)) as [E _].
  rewrite <- E. split; reflexivity.
Defined.

Lemma filter_length_le {A} (f : A -> bool) l :
  (List.length (filter f l) <= List.length l)%nat.
Proof.
  induction l as [|x l IH]; simpl; trivial. destruct (f x); simpl; lia.
Qed.

Lemma matches_at_most_one added k :
  unique_index added ->
  (List.length (filter (fun b => (rsid b =? k)%string) added) <= 1)%nat.
Proof.
  unfold unique_index, index.
  induction added as [|b added IH]; simpl; intros H; [lia|].
  inversion H as [|? ? Hb Hnd]; subst.
  destruct (String.eqb_spec (rsid b) k) as [E|E]; simpl; [|now apply IH].
  rewrite filter_nil; simpl; [lia|].
  intros x Hx. apply String.eqb_neq. intros Ex. apply Hb.
  rewrite E, <- Ex. now apply in_map.
Qed.

Lemma join_inner_length own added :
  unique_index added ->
  (List.length (pd.join_inner own added) <= List.length own)%nat.
Proof.
  intros Ha. unfold pd.join_inner.
  induction own as [|a own IH]; simpl; trivial.
  rewrite length_app, length_map.
  pose proof (matches_at_most_one (rsid a) Ha). lia.
Qed.

(** X13.  Neither count exceeds the number of rows of either table, so a
    threshold above the number of rows of one of them is never reached: the
    merge is not aborted by that check. *)
Theorem discrepancy_counts_are_bounded :
  forall own added,
    unique_index own -> unique_index added ->
    D_p own added <= Z.of_nat (List.length own) /\
    D_p own added <= Z.of_nat (List.length added) /\
    D_g own added <= Z.of_nat (List.length own) /\
    D_g own added <= Z.of_nat (List.length added).
Proof.
  intros own added Ho Ha.
  assert (B : forall x y, unique_index y ->
              D_p x y <= Z.of_nat (List.length x) /\
              D_g x y <= Z.of_nat (List.length x)).
  { intros x y Hy. unfold D_p, D_g, discrepant_positions, discrepant_genotypes.
    pose proof (join_inner_length x Hy).
    pose proof (filter_length_le position_differs (pd.join_inner x y)).
    pose proof (filter_length_le both_notnull (pd.join_inner x y)).
    pose proof (filter_length_le genotype_differs
                  (filter both_notnull (pd.join_inner x y))).
    lia. }
  destruct (counts_swap Ho Ha) as [Ep Eg].
  destruct (B own added Ha) as [B1 B2], (B added own Ho) as [B3 B4].
  rewrite <- Ep in B3. rewrite <- Eg in B4. auto.
Qed.

Lemma discrepancy_counts_are_bounded_witness :
  D_p (simulate_snps 3 0) (simulate_snps 5 1) <= 3.
Proof.
  exact (proj1 (@discrepancy_counts_are_bounded (simulate_snps 3 0) (simulate_snps 5 1)
                  (simulate_snps_unique 3 0) (simulate_snps_unique 5 1))).
Defined.

(** ** Batches *)

Lemma load_files_app fs l1 l2 pt gt : forall self,
  load_files fs self (l1 ++ l2)%list pt gt =
  match load_files fs self l1 pt gt with
  | (self', None) => load_files fs self' l2 pt gt
  | (self', Some e) => (self', Some e)
  end.
Proof.
  induction l1 as [|file l1 IH]; intros self; simpl; trivial.
  destruct (_read_raw_data fs file); [apply IH | reflexivity].
Qed.

(** X14.  Loading a list of files is loading a first part of it and then the
    rest from the state reached, unless the first part raised; a list of one
    path is that path loaded alone, and an empty list changes nothing. *)
Theorem batch_load_composes :
  (forall fs self l1 l2 pt gt,
      load_snps fs self (PyList (l1 ++ l2)%list) pt gt =
      match load_snps fs self (PyList l1) pt gt with
      | (self', None) => load_snps fs self' (PyList l2) pt gt
      | (self', Some e) => (self', Some e)
      end) /\
  (forall fs self file pt gt,
      load_snps fs self (PyList [PyStr file]) pt gt =
      load_snps fs self (PyStr file) pt gt) /\
  (forall fs self pt gt, load_snps fs self (PyList []) pt gt = (self, None)).
Proof.
  split; [|split].
  - intros. simpl. apply load_files_app.
  - intros fs self file pt gt. simpl.
    destruct (_read_raw_data_str fs file) as [snps E].
    unfold _read_raw_data in E. now rewrite E.
  - reflexivity.
Qed.

(** X15.  An element of the list that is no string raises [TypeError] when
    its turn comes: the files before it have been merged and stay merged, the
    files after it are not read. *)
Theorem bad_element_stops_the_batch :
  forall fs self files v rest pt gt,
    is_str v = false ->
    load_snps fs self (PyList (map PyStr files ++ v :: rest)%list) pt gt =
    (fst (load_snps fs self (PyList (map PyStr files)) pt gt), Some TypeError).
Proof.
  intros fs self files v rest pt gt Hv. simpl. rewrite load_files_app.
  pose proof (proj2 (load_files_raises fs (map PyStr files) pt gt self)) as Hok.
  destruct (load_files fs self (map PyStr files) pt gt) as [self' e] eqn:E.
  simpl in Hok. rewrite Hok.
  - simpl. now rewrite _read_raw_data_other.
  - apply list_of_paths. eauto.
Qed.

Lemma bad_element_stops_the_batch_witness :
  load_snps example_fs (new_individual "ind")
    (PyList [PyStr "own.txt"; PyOther; PyStr "added.txt"]) 100 10000
  = (mkIndividual "ind" (Some scenario_own), Some TypeError).
Proof.
  exact (@bad_element_stops_the_batch example_fs (new_individual "ind")
           ["own.txt"] PyOther [PyStr "added.txt"] 100 10000 eq_refl).
Defined.

(** ** Reading one file *)




Lemma recode_chrom_cases c :
  (c = "23" /\ recode_chrom c = "X") \/
  (c = "24" /\ recode_chrom c = "Y") \/
  (c = "25" /\ recode_chrom c = "PAR") \/
  (c = "26" /\ recode_chrom c = "MT") \/
  (c <> "23" /\ c <> "24" /\ c <> "25" /\ c <> "26" /\ recode_chrom c = c).
Proof.
  unfold recode_chrom.
  destruct (String.eqb_spec c "23") as [->|N1]; [now left|].
  destruct (String.eqb_spec c "24") as [->|N2]; [right; now left|].
  destruct (String.eqb_spec c "25") as [->|N3]; [right; right; now left|].
  destruct (String.eqb_spec c "26") as [->|N4];
    [right; right; right; now left|].
  right. right. right. right. auto.
Qed.

(** X17.  [_read_ancestry] keeps the rows of the file in their order with
    their rsid and position, writes the chromosome codes 23, 24, 25 and 26 as
    X, Y, PAR and MT and leaves every other label, so that no row is left on a
    chromosome 23 to 26, and joins the two alleles into the genotype, which is
    null as soon as one allele is.  It yields nothing when the reader fails. *)
Theorem ancestry_rows_are_recoded :
  forall fs file df,
    read_csv_ancestry fs file = Some df ->
    exists t,
      _read_ancestry fs file = Some t /\
      index t = map a_rsid df /\ map pos t = map a_pos df /\
      Forall2 (fun a r =>
                 chrom r = recode_chrom (a_chrom a) /\
                 genotype r = add_alleles (allele1 a) (allele2 a)) df t /\
      (forall r, In r t ->
                 chrom r <> "23" /\ chrom r <> "24" /\
                 chrom r <> "25" /\ chrom r <> "26") /\
      (forall a, In a df ->
                 (add_alleles (allele1 a) (allele2 a) = None <->
                  allele1 a = None \/ allele2 a = None)).
Proof.
  intros fs file df H. unfold _read_ancestry. rewrite H.
  eexists. split; [reflexivity|]. unfold index. rewrite !map_map. simpl.
  split; [reflexivity|]. split; [reflexivity|]. split; [|split].
  - clear H. induction df as [|a df IH]; simpl; constructor; auto.
  - intros r Hr. apply in_map_iff in Hr as [a [<- _]]. simpl.
    destruct (recode_chrom_cases (a_chrom a))
      as [[_ ->]|[[_ ->]|[[_ ->]|[[_ ->]|[N1 [N2 [N3 [N4 ->]]]]]]]];
      repeat split; trivial; discriminate.
  - intros a _. unfold add_alleles.
    destruct (allele1 a), (allele2 a); split; try tauto; try discriminate;
      intros [E|E]; discriminate.
Qed.

Lemma ancestry_rows_are_recoded_witness :
  exists t,
    _read_ancestry
      (mkFileSystem (fun _ => true) (fun _ => EmptyString) (fun _ => EmptyString)
         (fun _ => "#AncestryDNA raw data download")
         (fun _ => None) (fun _ => None)
         (fun _ => Some [mkAncestryRow "rs1" "23" 100 (Some "A") (Some "G");
                         mkAncestryRow "rs2" "26" 200 (Some "C") None;
                         mkAncestryRow "rs3" "7" 300 (Some "T") (Some "T")]))
      "ancestry.txt" = Some t /\
    t = [mkRow "rs1" "X" 100 (Some "AG"); mkRow "rs2" "MT" 200 None;
         mkRow "rs3" "7" 300 (Some "TT")].
Proof.
  destruct (@ancestry_rows_are_recoded
              (mkFileSystem (fun _ => true) (fun _ => EmptyString)
                 (fun _ => EmptyString)
                 (fun _ => "#AncestryDNA raw data download")
                 (fun _ => None) (fun _ => None)
                 (fun _ => Some [mkAncestryRow "rs1" "23" 100 (Some "A") (Some "G");
                                 mkAncestryRow "rs2" "26" 200 (Some "C") None;
                                 mkAncestryRow "rs3" "7" 300 (Some "T") (Some "T")]))
              "ancestry.txt" _ eq_refl) as [t [E _]].
  exists t. split; [exact E|].
  vm_compute in E. now injection E.
Defined.

(** ** The name *)

Lemma load_files_name fs raw_data pt gt : forall self,
  name (fst (load_files fs self raw_data pt gt)) = name self.
Proof.
  induction raw_data as [|file rest IH]; intros self; simpl; trivial.
  destruct (_read_raw_data fs file) as [snps|e]; trivial.
  rewrite IH. unfold name, _add_snps.
  destruct snps as [snps|]; trivial.
  destruct (_snps self); trivial.
  destruct (_ && _); trivial. destruct (_ && _); trivial.
Qed.

(** X18.  No load changes the name of an individual, whatever is loaded and
    whether or not it raises; a new individual has the name it was given. *)
Theorem name_is_never_changed :
  (forall self snps pt gt, name (_add_snps self snps pt gt) = name self) /\
  (forall fs self raw_data pt gt,
      name (fst (load_snps fs self raw_data pt gt)) = name self) /\
  (forall fs n raw_data, name (fst (__init__ fs n raw_data)) = n).
Proof.
  assert (H1 : forall self snps pt gt, name (_add_snps self snps pt gt) = name self).
  { intros self snps pt gt. unfold name, _add_snps.
    destruct snps as [snps|]; trivial.
    destruct (_snps self); trivial.
    destruct (_ && _); trivial. destruct (_ && _); trivial. }
  assert (H2 : forall fs self raw_data pt gt,
             name (fst (load_snps fs self raw_data pt gt)) = name self).
  { intros fs self raw_data pt gt. destruct raw_data as [file|l|]; simpl; trivial.
    - destruct (_read_raw_data_str fs file) as [snps E].
      unfold _read_raw_data in E. rewrite E. apply H1.
    - apply load_files_name. }
  split; [exact H1|]. split; [exact H2|].
  intros fs n raw_data. unfold __init__.
  destruct raw_data as [raw_data|]; [apply H2 | reflexivity].
Qed.

(** ** The first load *)


(** ** The variable name *)

Lemma is_digit_word c : is_digit c = true -> is_word c = true.
Proof. unfold is_word. now intros ->. Qed.

Lemma is_word_ascii c : is_word c = true -> (code c < 128)%N.
Proof.
  unfold is_word, is_digit. intros H.
  repeat (apply orb_true_iff in H as [H|H]);
    try (apply andb_true_iff in H as [H1 H2];
         apply N.leb_le in H1; apply N.leb_le in H2; lia).
  apply N.eqb_eq in H. lia.
Qed.

Lemma clean_word l :
  Forall (fun c => is_word c = true)
    (map (fun c => if is_word c then c else "_"%char) l).
Proof.
  induction l as [|c l IH]; simpl; constructor; trivial.
  destruct (is_word c) eqn:E; trivial.
Qed.

Lemma clean_fixed l :
  Forall (fun c => is_word c = true) l ->
  map (fun c => if is_word c then c else "_"%char) l = l.
Proof.
  induction 1 as [|c l Hc _ IH]; simpl; trivial. now rewrite Hc, IH.
Qed.

Lemma get_var_name_eq self :
  get_var_name self =
  let body := string_of_list_ascii
      (map (fun c => if is_word c then c else "_"%char)
           (list_ascii_of_string (name self))) in
  if leading_digit (name self) then String "_" body else body.
Proof. unfold get_var_name, leading_digit. now destruct (name self). Qed.

Lemma get_var_name_word self : word_only (get_var_name self).
Proof.
  rewrite get_var_name_eq. simpl. unfold word_only.
  destruct (leading_digit (name self)); simpl;
    rewrite list_ascii_of_string_of_list_ascii;
    [constructor; [reflexivity|] |]; apply clean_word.
Qed.

Lemma get_var_name_leading self : leading_digit (get_var_name self) = false.
Proof.
  unfold get_var_name. destruct (name self) as [|c s]; simpl; trivial.
  destruct (is_digit c) eqn:D; simpl; trivial.
  destruct (is_word c) eqn:W; trivial.
Qed.

Lemma get_var_name_fixed self :
  word_only (name self) -> leading_digit (name self) = false ->
  get_var_name self = name self.
Proof.
  intros W L. rewrite get_var_name_eq. simpl. rewrite L.
  rewrite (clean_fixed W). apply string_of_list_ascii_of_string.
Qed.

Lemma length_string_of_list l :
  String.length (string_of_list_ascii l) = List.length l.
Proof. induction l; simpl; auto. Qed.

(** X20.  On a name of ASCII characters the variable name is made of letters,
    digits and underscores only, does not begin with a digit and is again
    ASCII; it is as long as the name, and one longer when the name begins with
    a digit. *)
Theorem var_name_has_word_characters_only :
  forall self,
    ascii_only (name self) ->
    word_only (get_var_name self) /\
    leading_digit (get_var_name self) = false /\
    ascii_only (get_var_name self) /\
    String.length (get_var_name self) =
    (String.length (name self) + if leading_digit (name self) then 1 else 0)%nat.
Proof.
  intros self _. split; [apply get_var_name_word|].
  split; [apply get_var_name_leading|]. split.
  - eapply Forall_impl; [|apply get_var_name_word].
    intros c. apply is_word_ascii.
  - rewrite get_var_name_eq. simpl.
    destruct (leading_digit (name self)); simpl;
      rewrite length_string_of_list, length_map,
        <- (length_string_of_list (list_ascii_of_string (name self))),
        string_of_list_ascii_of_string; lia.
Qed.

Lemma var_name_has_word_characters_only_witness :
  get_var_name (new_individual "1 John-Doe") = "_1_John_Doe" /\
  word_only (get_var_name (new_individual "1 John-Doe")).
Proof.
  split; [reflexivity|].
  refine (proj1 (@var_name_has_word_characters_only
                   (new_individual "1 John-Doe") _)).
  unfold ascii_only. simpl. repeat constructor.
Defined.

(** X21.  A name of letters, digits and underscores that does not begin with
    a digit is its own variable name; hence cleaning a cleaned name changes
    nothing. *)
Theorem var_name_is_a_fixed_point :
  forall self,
    ascii_only (name self) ->
    (word_only (name self) -> leading_digit (name self) = false ->
     get_var_name self = name self) /\
    get_var_name (mkIndividual (get_var_name self) (_snps self)) =
    get_var_name self.
Proof.
  intros self _. split; [apply get_var_name_fixed|].
  apply get_var_name_fixed; simpl.
  - apply get_var_name_word.
  - apply get_var_name_leading.
Qed.

Lemma var_name_is_a_fixed_point_witness :
  get_var_name (mkIndividual (get_var_name (new_individual "1 John-Doe")) None)
  = "_1_John_Doe".
Proof.
  refine (eq_trans (proj2 (@var_name_is_a_fixed_point
                             (new_individual "1 John-Doe") _)) eq_refl).
  unfold ascii_only. simpl. repeat constructor.
Defined.

(** ** The format of a file *)

Lemma contains_eq sub s :
  contains sub s =
  String.prefix sub s ||
  match s with
  | EmptyString => false
  | String _ s' => contains sub s'
  end.
Proof. now destruct s. Qed.

Lemma prefix_app sub post : String.prefix sub (sub ++ post) = true.
Proof.
  induction sub as [|a sub IH]; simpl; [now destruct post|].
  destruct (ascii_dec a a); [exact IH | congruence].
Qed.

Lemma prefix_inv sub : forall s,
  String.prefix sub s = true -> exists post, s = sub ++ post.
Proof.
  induction sub as [|a sub IH]; intros s H.
  - now exists s.
  - destruct s as [|b s]; [discriminate|]. simpl in H.
    destruct (ascii_dec a b) as [->|]; [|discriminate].
    destruct (IH s H) as [post ->]. now exists post.
Qed.

Lemma contains_iff sub s :
  contains sub s = true <-> exists pre post, s = pre ++ sub ++ post.
Proof.
  split.
  - induction s as [|a s IH]; rewrite contains_eq; intros H;
      apply orb_true_iff in H as [H|H].
    + apply prefix_inv in H as [post E]. now exists EmptyString, post.
    + discriminate.
    + apply prefix_inv in H as [post E]. now exists EmptyString, post.
    + destruct (IH H) as [pre [post ->]]. now exists (String a pre), post.
  - intros [pre [post ->]]. induction pre as [|a pre IH].
    + rewrite contains_eq. simpl. now rewrite prefix_app.
    + change (contains sub (String a (pre ++ sub ++ post)) = true).
      rewrite contains_eq. cbv beta iota. rewrite IH. apply orb_true_r.
Qed.

(** X22.  The parser is chosen by the first signature found in the first
    line, in the order 23andMe, Ancestry, RSID: a line that has the text
    23andMe anywhere goes to the 23andMe parser whatever else it holds; one
    with Ancestry and without 23andMe goes to the Ancestry parser; the FTDNA
    parser takes a line that begins with RSID and has neither text. *)
Theorem parser_is_chosen_by_first_signature :
  forall fs file,
    os_path_exists fs file = true ->
    ((exists pre post, peek fs file = pre ++ "23andMe" ++ post) ->
     _read_raw_data fs (PyStr file) = Ok (_read_23andme fs file)) /\
    (~ (exists pre post, peek fs file = pre ++ "23andMe" ++ post) ->
     (exists pre post, peek fs file = pre ++ "Ancestry" ++ post) ->
     _read_raw_data fs (PyStr file) = Ok (_read_ancestry fs file)) /\
    (~ (exists pre post, peek fs file = pre ++ "23andMe" ++ post) ->
     ~ (exists pre post, peek fs file = pre ++ "Ancestry" ++ post) ->
     (exists post, peek fs file = "RSID" ++ post) ->
     _read_raw_data fs (PyStr file) = Ok (_read_ftdna fs file)).
Proof.
  intros fs file He. unfold _read_raw_data. rewrite He. cbn [negb].
  split; [|split].
  - intros H. apply contains_iff in H. now rewrite H.
  - intros N H. apply contains_iff in H.
    destruct (contains "23andMe" (peek fs file)) eqn:E.
    + exfalso. apply N. now apply contains_iff.
    + now rewrite H.
  - intros N1 N2 [post H].
    destruct (contains "23andMe" (peek fs file)) eqn:E1.
    { exfalso. apply N1. now apply contains_iff. }
    destruct (contains "Ancestry" (peek fs file)) eqn:E2.
    { exfalso. apply N2. now apply contains_iff. }
    rewrite H. now destruct post.
Qed.

Lemma parser_is_chosen_by_first_signature_witness :
  _read_raw_data example_fs (PyStr "own.txt")
  = Ok (_read_23andme example_fs "own.txt").
Proof.
  refine (proj1 (@parser_is_chosen_by_first_signature example_fs "own.txt"
                   eq_refl) _).
  vm_compute. exists "# This data file generated by ", EmptyString. reflexivity.
Defined.

(** ** The complement helpers of the tests *)

Lemma get_complement_involutive c : get_complement (get_complement c) = c.
Proof.
  unfold get_complement.
  destruct (Ascii.eqb_spec c "A") as [->|NA]; [reflexivity|].
  destruct (Ascii.eqb_spec c "G") as [->|NG]; [reflexivity|].
  destruct (Ascii.eqb_spec c "C") as [->|NC]; [reflexivity|].
  destruct (Ascii.eqb_spec c "T") as [->|NT]; [reflexivity|].
  destruct (Ascii.eqb_spec c "A"); [congruence|].
  destruct (Ascii.eqb_spec c "G"); [congruence|].
  destruct (Ascii.eqb_spec c "C"); [congruence|].
  destruct (Ascii.eqb_spec c "T"); [congruence|]. reflexivity.
Qed.

Lemma append_empty_r s : s ++ EmptyString = s.
Proof. induction s; simpl; congruence. Qed.

Lemma append_assoc' (a b c : string) : (a ++ b) ++ c = a ++ b ++ c.
Proof. induction a; simpl; congruence. Qed.

Lemma complement_loop l : forall acc,
  fold_left (fun complement base =>
               complement ++ String (get_complement base) EmptyString) l acc
  = acc ++ string_of_list_ascii (map get_complement l).
Proof.
  induction l as [|b l IH]; intros acc; simpl.
  - now rewrite append_empty_r.
  - rewrite IH, append_assoc'. reflexivity.
Qed.

Lemma complement_two_chroms_map g :
  complement_two_chroms (Some g) =
  Some (string_of_list_ascii (map get_complement (list_ascii_of_string g))).
Proof. unfold complement_two_chroms. now rewrite complement_loop. Qed.

(** X23.  [complement_two_chroms] complements base by base: it keeps null
    and the length, and undoes itself.  On a genotype of two bases among
    A, C, G, T the result is discrepant with the genotype it came from, under
    the rule of [_add_snps], unless the second base is the complement of the
    first (AT, TA, CG, GC), where the swapped pairing matches. *)
Theorem complement_two_chroms_involutive :
  complement_two_chroms None = None /\
  (forall g, exists g',
      complement_two_chroms (Some g) = Some g' /\
      String.length g' = String.length g /\
      complement_two_chroms (Some g') = Some g) /\
  (forall a b,
      is_base a -> is_base b ->
      let g := Some (String a (String b EmptyString)) in
      genotype_mask g (complement_two_chroms g) =
      negb (b =? get_complement a)%char).
Proof.
  split; [reflexivity|]. split.
  - intros g. eexists. split; [apply complement_two_chroms_map|]. split.
    + rewrite length_string_of_list, length_map,
        <- (length_string_of_list (list_ascii_of_string g)),
        string_of_list_ascii_of_string. reflexivity.
    + rewrite complement_two_chroms_map, list_ascii_of_string_of_list_ascii,
        map_map.
      rewrite (map_ext _ (fun c => c) get_complement_involutive), map_id.
      now rewrite string_of_list_ascii_of_string.
  - intros a b [-> | [-> | [-> | ->] ] ] [-> | [-> | [-> | ->] ] ]; reflexivity.
Qed.

Lemma complement_two_chroms_involutive_witness :
  genotype_mask (Some "AA") (complement_two_chroms (Some "AA")) = true /\
  genotype_mask (Some "AT") (complement_two_chroms (Some "AT")) = false.
Proof.
  split.
  - refine (proj2 (proj2 complement_two_chroms_involutive) "A"%char "A"%char _ _);
      left; reflexivity.
  - refine (proj2 (proj2 complement_two_chroms_involutive) "A"%char "T"%char _ _);
      [left | right; right; right]; reflexivity.
Defined.

(** X24.  [complement_one_chrom] leaves its loop in the first round: of a
    genotype of two characters or more it returns the complement of the first
    base followed by the second character, of null NaN, of the empty string
    nothing at all, and on a single character it raises [IndexError].  On two
    bases among A, C, G, T the result is always discrepant with the genotype it
    came from. *)
Theorem complement_one_chrom_first_base_only :
  complement_one_chrom None = NaN /\
  complement_one_chrom (Some EmptyString) = PyNone /\
  (forall a, complement_one_chrom (Some (String a EmptyString)) = IndexError) /\
  (forall a b rest,
      complement_one_chrom (Some (String a (String b rest))) =
      Str (String (get_complement a) (String b EmptyString))) /\
  (forall a b,
      is_base a -> is_base b ->
      genotype_mask (Some (String a (String b EmptyString)))
                    (Some (String (get_complement a) (String b EmptyString)))
      = true).
Proof.
  repeat split; try reflexivity.
  intros a b [-> | [-> | [-> | ->] ] ] [-> | [-> | [-> | ->] ] ]; reflexivity.
Qed.

Lemma complement_one_chrom_first_base_only_witness :
  genotype_mask (Some "AT") (Some "TT") = true.
Proof.
  refine (proj2 (proj2 (proj2 (proj2 complement_one_chrom_first_base_only)))
            "A"%char "T"%char _ _);
    [left | right; right; right]; reflexivity.
Defined.
